(** * Mini-Bash: a shallow embedding of [mini_bash.c] and its specification

    The development follows the layout of the C file: text helpers,
    the line reader, the tokenizer [parse_line], the path builder and the
    executable resolver, the status reporter, the launcher, the [cd]
    built-in and the read-eval loop of [main].

    Conventions.
    - A C string value is the list of its bytes before the terminating NUL.
    - The line buffer is modelled as raw memory (a list of bytes that may
      hold NUL anywhere): [parse_line] writes terminators into it and
      returns offsets into it, exactly as the C code returns pointers.
    - The operating system is a record of oracles and observable streams
      ([world]); every system call of the source is a function on it. *)

From Stdlib Require Import Bool Ascii String List ZArith Lia Arith.
Import ListNotations.

(* ------------------------------------------------------------------ *)
(** ** Bytes and C strings *)

Definition text := list ascii.

Definition lit (s : string) : text := list_ascii_of_string s.

Definition NUL : ascii := "000"%char.
Definition TAB : ascii := "009"%char.
Definition LF  : ascii := "010"%char.
Definition CR  : ascii := "013"%char.
Definition SP  : ascii := " "%char.

(** The separator test that the source spells out four times:
    [c == ' ' || c == '\t' || c == '\r' || c == '\n']. *)
Definition is_ws (c : ascii) : bool :=
  Ascii.eqb c SP || Ascii.eqb c TAB || Ascii.eqb c CR || Ascii.eqb c LF.

Definition is_nul (c : ascii) : bool := Ascii.eqb c NUL.

(** [*line != '\0' && *line != ' ' && *line != '\t' && ...]: the test of
    the token-scanning loop. *)
Definition is_tokchar (c : ascii) : bool := negb (is_nul c) && negb (is_ws c).

(** Reading a byte of memory.  Offsets past the modelled block read as NUL:
    the block always ends with the string terminator, which every loop of
    the source stops at, so such offsets are never reached. *)
Definition peek (m : text) (i : nat) : ascii := nth i m NUL.

(** [m[i] = c]. *)
Fixpoint poke (m : text) (i : nat) (c : ascii) : text :=
  match m, i with
  | [], _ => []
  | _ :: m', O => c :: m'
  | x :: m', S i' => x :: poke m' i' c
  end.

Fixpoint take_while (p : ascii -> bool) (s : text) : text :=
  match s with
  | [] => []
  | c :: s' => if p c then c :: take_while p s' else []
  end.

Fixpoint drop_while (p : ascii -> bool) (s : text) : text :=
  match s with
  | [] => []
  | c :: s' => if p c then drop_while p s' else s
  end.

(** The C string that starts a block of memory: the bytes before the
    first NUL. *)
Definition cstr (m : text) : text := take_while (fun c => negb (is_nul c)) m.

(** The C string a pointer [m + i] denotes. *)
Definition cstr_at (m : text) (i : nat) : text := cstr (skipn i m).

(** [str_len]. *)
Definition str_len (s : text) : Z := Z.of_nat (length s).

(** [strcmp(a, b) == 0]. *)
Fixpoint streq (a b : text) : bool :=
  match a, b with
  | [], [] => true
  | x :: a', y :: b' => Ascii.eqb x y && streq a' b'
  | _, _ => false
  end.

(* ------------------------------------------------------------------ *)
(** ** The tokenizer: [starts_empty_or_ws] and [parse_line] *)

(** [for (i = 0; s[i] != '\0'; i++) if (!ws(s[i])) return 0; return 1;] *)
Fixpoint only_ws_from (fuel : nat) (m : text) (i : nat) : bool :=
  match fuel with
  | O => true
  | S f =>
      if is_nul (peek m i) then true
      else if negb (is_ws (peek m i)) then false
      else only_ws_from f m (S i)
  end.

Definition starts_empty_or_ws (m : text) : bool :=
  only_ws_from (S (length m)) m 0.

(** [while (p( *line)) line++;] with [line = m + i]; the result is the new
    offset.  [fuel] bounds the walk by the size of the block. *)
Fixpoint advance (p : ascii -> bool) (fuel : nat) (m : text) (i : nat) : nat :=
  match fuel with
  | O => i
  | S f => if p (peek m i) then advance p f m (S i) else i
  end.

Definition skip_ws (m : text) (i : nat) : nat := advance is_ws (length m) m i.

Definition scan_token (m : text) (i : nat) : nat :=
  advance is_tokchar (length m) m i.

Definition MAX_ARGS : Z := 128.

(** The main loop of [parse_line].  [argv] is the list of token pointers
    stored so far (as offsets into the line), so [argc] is its length and
    the final [argv[argc] = NULL] is the end of the list. *)
Fixpoint parse_loop (fuel : nat) (max_args : Z) (m : text) (i : nat)
    (argv : list nat) : text * list nat :=
  match fuel with
  | O => (m, argv)
  | S f =>
      if negb (is_nul (peek m i)) && (Z.of_nat (length argv) <? max_args - 1)%Z
      then
        let argv' := argv ++ [i] in
        let j := scan_token m i in
        if is_nul (peek m j) then (m, argv')
        else
          let m' := poke m j NUL in
          parse_loop f max_args m' (skip_ws m' (S j)) argv'
      else (m, argv)
  end.

(** [parse_line(line, argv, max_args)]: the line after the in-place
    writes, and the pointers stored in [argv]. *)
Definition parse_line (line : text) (max_args : Z) : text * list nat :=
  parse_loop (length line) max_args line (skip_ws line 0) [].

Definition argc_of (r : text * list nat) : Z := Z.of_nat (length (snd r)).

(** The strings [argv[0]], [argv[1]], ... as later code reads them. *)
Definition args_of (r : text * list nat) : list text :=
  map (cstr_at (fst r)) (snd r).

Definition tokenize (line : text) : list text :=
  args_of (parse_line line MAX_ARGS).

(** *** Reference definition, from the wording of the specification

    "The ordered sequence of maximal runs of non-whitespace characters":
    [runs cur s] walks [s] with the run being collected in [cur]. *)
Fixpoint runs (cur : text) (s : text) : list text :=
  match s with
  | [] => match cur with [] => [] | _ => [cur] end
  | c :: s' =>
      if is_ws c
      then match cur with [] => runs [] s' | _ => cur :: runs [] s' end
      else runs (cur ++ [c]) s'
  end.

Definition words (s : text) : list text := runs [] s.

(** A relational reading of the same sentence: the line is separators,
    then a non-empty separator-free token that ends at a separator or at
    the end of the line, then the rest. *)
Inductive Runs : text -> list text -> Prop :=
| Runs_none s :
    forallb is_ws s = true -> Runs s []
| Runs_more pre tok rest ts :
    forallb is_ws pre = true ->
    tok <> [] ->
    forallb (fun c => negb (is_ws c)) tok = true ->
    match rest with [] => True | c :: _ => is_ws c = true end ->
    Runs rest ts ->
    Runs (pre ++ tok ++ rest) (tok :: ts).

(* ------------------------------------------------------------------ *)
(** ** The operating system as the shell sees it *)

(** [size_t] arithmetic (64-bit, as on the LP64 systems the file is
    written for) wraps around. *)
Definition size_t (z : Z) : Z := (z mod 2 ^ 64)%Z.

(** One result of [read(STDIN_FILENO, &c, 1)]: a byte, end of input, or
    an error with its [errno]. *)
Inductive rd : Type :=
| RdByte (c : ascii)
| RdEof
| RdErr (e : Z).

(** What one call of [fork] leads to: failure with an [errno], or a child
    with its process id, the error of [execv] in it (if any), and what
    [waitpid] gives the parent (a status word, or an [errno]). *)
Inductive child : Type :=
| ForkFails (e : Z)
| Spawned (pid : Z) (exec_err : option Z) (wait : Z + Z).

(** The process-related calls the shell makes, in order. *)
Inductive event : Type :=
| EvFork
| EvExecv (path : text) (argv : list text)
| EvChildExit (code : Z)
| EvWaitpid (pid : Z)
| EvChdir (target : text).

Record world : Type := mkWorld {
  w_stdin    : list rd;              (* what the next reads will return *)
  w_stdout   : text;                 (* bytes written to descriptor 1 *)
  w_stderr   : text;                 (* bytes written to descriptor 2 *)
  w_wr_err   : Z -> option Z;        (* per descriptor: errno of write, if it fails *)
  w_home     : option text;          (* getenv("HOME") *)
  w_cwd      : text;                 (* working directory of the process *)
  w_access   : text -> text -> bool; (* cwd, path: access(path, X_OK) == 0 *)
  w_chdir    : text -> text -> text + Z; (* cwd, target: new cwd, or errno *)
  w_heap     : Z -> bool;            (* can a block of that size be had *)
  w_children : list child;           (* what the next forks will do *)
  w_errno    : Z;
  w_strerror : Z -> text;
  w_trace    : list event
}.

Definition STDOUT_FILENO : Z := 1.
Definition STDERR_FILENO : Z := 2.
Definition ENOENT : Z := 2.
Definition EBADF : Z := 9.
Definition EAGAIN : Z := 11.

Definition set_stdin (i : list rd) (w : world) : world :=
  mkWorld i (w_stdout w) (w_stderr w) (w_wr_err w) (w_home w) (w_cwd w)
    (w_access w) (w_chdir w) (w_heap w) (w_children w) (w_errno w)
    (w_strerror w) (w_trace w).

Definition set_stdout (o : text) (w : world) : world :=
  mkWorld (w_stdin w) o (w_stderr w) (w_wr_err w) (w_home w) (w_cwd w)
    (w_access w) (w_chdir w) (w_heap w) (w_children w) (w_errno w)
    (w_strerror w) (w_trace w).

Definition set_stderr (e : text) (w : world) : world :=
  mkWorld (w_stdin w) (w_stdout w) e (w_wr_err w) (w_home w) (w_cwd w)
    (w_access w) (w_chdir w) (w_heap w) (w_children w) (w_errno w)
    (w_strerror w) (w_trace w).

Definition set_cwd (d : text) (w : world) : world :=
  mkWorld (w_stdin w) (w_stdout w) (w_stderr w) (w_wr_err w) (w_home w) d
    (w_access w) (w_chdir w) (w_heap w) (w_children w) (w_errno w)
    (w_strerror w) (w_trace w).

Definition set_children (c : list child) (w : world) : world :=
  mkWorld (w_stdin w) (w_stdout w) (w_stderr w) (w_wr_err w) (w_home w)
    (w_cwd w) (w_access w) (w_chdir w) (w_heap w) c (w_errno w)
    (w_strerror w) (w_trace w).

Definition set_errno (e : Z) (w : world) : world :=
  mkWorld (w_stdin w) (w_stdout w) (w_stderr w) (w_wr_err w) (w_home w)
    (w_cwd w) (w_access w) (w_chdir w) (w_heap w) (w_children w) e
    (w_strerror w) (w_trace w).

Definition log (ev : event) (w : world) : world :=
  mkWorld (w_stdin w) (w_stdout w) (w_stderr w) (w_wr_err w) (w_home w)
    (w_cwd w) (w_access w) (w_chdir w) (w_heap w) (w_children w) (w_errno w)
    (w_strerror w) (w_trace w ++ [ev]).

(** Code with effects on the world. *)
Definition M (A : Type) : Type := world -> A * world.

Definition ret {A} (a : A) : M A := fun w => (a, w).

Definition bind {A B} (c : M A) (k : A -> M B) : M B :=
  fun w => let (a, w') := c w in k a w'.

Declare Scope shell_scope.
Delimit Scope shell_scope with shell.
Notation "x <- c ;; k" := (bind c (fun x => k))
  (at level 61, c at next level, right associativity) : shell_scope.
Notation "c ;;; k" := (bind c (fun _ => k))
  (at level 61, right associativity) : shell_scope.
Open Scope shell_scope.

(** The descriptor's stream with [data] appended. *)
Definition emit (fd : Z) (data : text) (w : world) : world :=
  if (fd =? STDOUT_FILENO)%Z then set_stdout (w_stdout w ++ data) w
  else if (fd =? STDERR_FILENO)%Z then set_stderr (w_stderr w ++ data) w
  else w.

(** [write(fd, data, n)]: all of it or nothing (the source ignores partial
    writes, and so does the model). *)
Definition sys_write (fd : Z) (data : text) : M Z := fun w =>
  match w_wr_err w fd with
  | Some e => ((-1)%Z, set_errno e w)
  | None => (Z.of_nat (length data), emit fd data w)
  end.

Definition sys_getenv_HOME : M (option text) := fun w => (w_home w, w).

(** [access(path, X_OK) == 0]. *)
Definition sys_access_x (path : text) : M bool :=
  fun w => (w_access w (w_cwd w) path, w).

(** [chdir(target)].  POSIX: an empty pathname is an error ([ENOENT]). *)
Definition sys_chdir (target : text) : M Z := fun w =>
  let w := log (EvChdir target) w in
  match target with
  | [] => ((-1)%Z, set_errno ENOENT w)
  | _ =>
      match w_chdir w (w_cwd w) target with
      | inl d => (0%Z, set_cwd d w)
      | inr e => ((-1)%Z, set_errno e w)
      end
  end.

(** [perror(tag)]: "tag: message\n" on standard error, for the current
    [errno]. *)
Definition perror (tag : text) : M unit := fun w =>
  (sys_write STDERR_FILENO (tag ++ lit ": " ++ w_strerror w (w_errno w) ++ [LF])
   ;;; ret tt) w.

(* ------------------------------------------------------------------ *)
(** ** Output helpers: [write_str], [write_chr], [write_int] *)

Definition write_str (fd : Z) (s : text) : M unit :=
  sys_write fd s ;;; ret tt.

Definition write_chr (fd : Z) (c : ascii) : M unit :=
  sys_write fd [c] ;;; ret tt.

Definition INT_MIN : Z := (-2147483647 - 1)%Z.
Definition INT_MAX : Z := 2147483647%Z.

(** [(char)('0' + d)]. *)
Definition digit_char (d : Z) : ascii := ascii_of_nat (48 + Z.to_nat d).

(** [while (x > 0 && i < sizeof(buf)) { buf[i++] = '0' + x % 10; x /= 10; }]
    where [buf] holds the [i] digits stored so far and [room] is
    [sizeof(buf) - i]. *)
Fixpoint digits_loop (room : nat) (x : Z) (buf : text) : text :=
  match room with
  | O => buf
  | S r =>
      if (x >? 0)%Z
      then digits_loop r (Z.quot x 10) (buf ++ [digit_char (Z.rem x 10)])
      else buf
  end.

(** [while (i > 0) write_chr(fd, buf[--i]);] *)
Fixpoint write_back (fd : Z) (i : nat) (buf : text) : M unit :=
  match i with
  | O => ret tt
  | S i' => write_chr fd (peek buf i') ;;; write_back fd i' buf
  end.

Definition write_int (fd : Z) (x : Z) : M unit :=
  if (x =? 0)%Z then write_chr fd "0"%char
  else
    (* [None]: the function has returned; [Some x]: go on with this [x] *)
    r <- (if (x <? 0)%Z then
            write_chr fd "-"%char ;;;
            if (x =? INT_MIN)%Z
            then write_str fd (lit "2147483648") ;;; ret None
            else ret (Some (- x)%Z)
          else ret (Some x)) ;;
    match r with
    | None => ret tt
    | Some x' =>
        let buf := digits_loop 32 x' [] in
        write_back fd (length buf) buf
    end.

(* ------------------------------------------------------------------ *)
(** ** The line reader: [read_line] *)

Definition INITIAL_BUF : Z := 256.

(** The caller's [line] and [cap]: whether [line] is non-NULL, the
    capacity, and the bytes of the block up to and including the
    terminator that [read_line] stores; what lies beyond it is never
    read. *)
Record linebuf : Type := mkLinebuf {
  lb_alloc : bool;
  lb_cap   : Z;
  lb_mem   : text
}.

(** "Ensure space for new char + '\0'": the capacity to go on with, or
    [None] when [realloc] fails. *)
Definition grow (heap : Z -> bool) (cap len : Z) : option Z :=
  if (size_t (len + 2) >? cap)%Z then
    let new_cap := size_t (cap * 2) in
    if heap new_cap then Some new_cap else None
  else Some cap.

(** The [while (1)] loop of [read_line].  It consumes one pending read per
    iteration, so it is written by recursion on them; an exhausted input
    reads as end of file.  [got] is [buf[0..len)].  The result is the
    return value, the capacity, the bytes written to the block, and the
    reads still to come. *)
Fixpoint read_loop (heap : Z -> bool) (input : list rd) (cap : Z) (got : text)
    : Z * Z * text * list rd :=
  let len := str_len got in
  let at_eof (rest : list rd) :=
    if (len =? 0)%Z then ((-1)%Z, cap, got, rest)
    else (len, cap, got ++ [NUL], rest) in
  match input with
  | [] => at_eof []
  | RdEof :: rest => at_eof rest
  | RdErr _ :: rest => ((-1)%Z, cap, got, rest)
  | RdByte c :: rest =>
      match grow heap cap len with
      | None => ((-1)%Z, cap, got, rest)
      | Some cap' =>
          let got' := got ++ [c] in
          if Ascii.eqb c LF
          then (str_len got', cap', got' ++ [NUL], rest)
          else read_loop heap rest cap' got'
      end
  end.

(** The capacity [read_line] starts its loop with. *)
Definition start_cap (lb : linebuf) : Z :=
  if negb (lb_alloc lb) || (lb_cap lb =? 0)%Z then INITIAL_BUF else lb_cap lb.

Definition read_line (lb : linebuf) : M (Z * linebuf) := fun w =>
  let fresh := negb (lb_alloc lb) || (lb_cap lb =? 0)%Z in
  if fresh && negb (w_heap w INITIAL_BUF)
  then (((-1)%Z, mkLinebuf false INITIAL_BUF []), w)
  else
    match read_loop (w_heap w) (w_stdin w) (start_cap lb) [] with
    | (n, cap', mem, rest) => ((n, mkLinebuf true cap' mem), set_stdin rest w)
    end.

(* ------------------------------------------------------------------ *)
(** ** The resolver: [build_path] and [find_executable] *)

Definition PATH_BUF : Z := 4096.

(** [build_path(out, out_sz, prefix, cmd)]: [None] for the return value 0
    ([out] untouched), [Some path] for 1 with [path] the string left in
    [out]. *)
Definition build_path (out_sz : Z) (prefix cmd : text) : option text :=
  let p := str_len prefix in
  let c := str_len cmd in
  if (size_t (p + 1 + c + 1) >? out_sz)%Z then None
  else Some (prefix ++ lit "/" ++ cmd).

(** [find_executable(cmd, out, out_sz)]: [Some path] for 1 with [path] in
    [out], [None] for 0. *)
Definition find_executable (cmd : text) (out_sz : Z) : M (option text) :=
  home <- sys_getenv_HOME ;;
  first <- match home with
           | Some (h0 :: h') =>
               match build_path out_sz (h0 :: h') cmd with
               | Some out =>
                   ok <- sys_access_x out ;;
                   ret (if ok then Some out else None)
               | None => ret None
               end
           | _ => ret None
           end ;;
  match first with
  | Some out => ret (Some out)
  | None =>
      match build_path out_sz (lit "/bin") cmd with
      | Some out =>
          ok <- sys_access_x out ;;
          ret (if ok then Some out else None)
      | None => ret None
      end
  end.

Definition print_unknown (cmd : text) : M unit :=
  write_chr STDERR_FILENO "["%char ;;;
  write_str STDERR_FILENO cmd ;;;
  write_str STDERR_FILENO (lit "]: Unknown Command" ++ [LF]).

(* ------------------------------------------------------------------ *)
(** ** The status reporter and the launcher *)

(** The macros of [<sys/wait.h>] that the source applies to the status
    word.  They belong to the platform, not to the program. *)
Record wait_macros : Type := mkWaitMacros {
  WIFEXITED   : Z -> bool;
  WEXITSTATUS : Z -> Z;
  WIFSIGNALED : Z -> bool;
  WTERMSIG    : Z -> Z
}.

(** Their definitions in the GNU C library. *)
Definition glibc_wait : wait_macros :=
  let termsig (s : Z) := Z.land s 127 in
  mkWaitMacros
    (fun s => (termsig s =? 0)%Z)
    (fun s => Z.shiftr (Z.land s 65280) 8)
    (fun s =>
       let t := (termsig s + 1)%Z in
       let signed_char := if (t >=? 128)%Z then (t - 256)%Z else t in
       (Z.shiftr signed_char 1 >? 0)%Z)
    termsig.

(** [fork()]: the return value in the parent and, when a child exists,
    what becomes of it. *)
Definition sys_fork : M (Z * option (option Z * (Z + Z))) := fun w =>
  let w := log EvFork w in
  match w_children w with
  | [] => (((-1)%Z, None), set_errno EAGAIN w)
  | ForkFails e :: rest => (((-1)%Z, None), set_errno e (set_children rest w))
  | Spawned pid x wt :: rest => ((pid, Some (x, wt)), set_children rest w)
  end.

(** The code the child runs ([pid == 0]): [execv]; if that returns,
    [perror("execv")] and [_exit(1)].  The child has its own [errno]; its
    standard error is the parent's. *)
Definition child_branch (path : text) (argv : list text) (exec_err : option Z)
    : M unit := fun w =>
  let w := log (EvExecv path argv) w in
  match exec_err with
  | None => (tt, w)
  | Some e =>
      let msg := lit "execv" ++ lit ": " ++ w_strerror w e ++ [LF] in
      let w := match w_wr_err w STDERR_FILENO with
               | None => emit STDERR_FILENO msg w
               | Some _ => w
               end in
      (tt, log (EvChildExit 1) w)
  end.

(** [waitpid(pid, &status, 0)]: the return value and the status word. *)
Definition sys_waitpid (pid : Z) (wt : Z + Z) : M (Z * Z) := fun w =>
  let w := log (EvWaitpid pid) w in
  match wt with
  | inl status => ((pid, status), w)
  | inr e => (((-1)%Z, 0%Z), set_errno e w)
  end.

Section Reporting.

Variable wm : wait_macros.

Definition report_status (status : Z) : M unit :=
  if WIFEXITED wm status then
    let code := WEXITSTATUS wm status in
    write_str STDOUT_FILENO (lit "Command executed successfully. Return code: ") ;;;
    write_int STDOUT_FILENO code ;;;
    write_chr STDOUT_FILENO LF
  else if WIFSIGNALED wm status then
    let sig := WTERMSIG wm status in
    write_str STDOUT_FILENO (lit "Command terminated by signal: ") ;;;
    write_int STDOUT_FILENO sig ;;;
    write_chr STDOUT_FILENO LF
  else
    write_str STDOUT_FILENO (lit "Command finished. (unknown status)" ++ [LF]).

(** [argv[0]]; the callers pass at least one argument. *)
Definition argv0 (argv : list text) : text := hd [] argv.

Definition execute_external (argv : list text) : M unit :=
  found <- find_executable (argv0 argv) PATH_BUF ;;
  match found with
  | None => print_unknown (argv0 argv)
  | Some path =>
      f <- sys_fork ;;
      match f with
      | (_, None) => perror (lit "fork")
      | (pid, Some (exec_err, wt)) =>
          (* the child *)
          child_branch path argv exec_err ;;;
          (* the parent *)
          r <- sys_waitpid pid wt ;;
          if (fst r <? 0)%Z then perror (lit "waitpid")
          else report_status (snd r)
      end
  end.

End Reporting.

(* ------------------------------------------------------------------ *)
(** ** The built-in [cd] *)

Definition builtin_cd (argv : list text) (argc : Z) : M unit :=
  target <- (if (argc >=? 2)%Z then ret (nth_error argv 1)
             else sys_getenv_HOME) ;;
  match target with
  | None => write_str STDERR_FILENO (lit "cd: HOME not set" ++ [LF])
  | Some t =>
      r <- sys_chdir t ;;
      if negb (r =? 0)%Z then perror (lit "chdir") else ret tt
  end.

(* ------------------------------------------------------------------ *)
(** ** The read-eval loop: [main] *)

Definition PROMPT : text := lit "mini-bash $ ".
Definition PROMPT_LEN : nat := 11.

Inductive step : Type := Continue | Break.

(** [char *line = NULL; size_t cap = 0;] *)
Definition no_line : linebuf := mkLinebuf false 0 [].

Section Main.

Variable wm : wait_macros.

(** Steps 3 and 4 of the loop body, for the line that step 2 has left in
    the buffer: skip a blank line, parse, and run the built-in or the
    external command. *)
Definition run_line (lb : linebuf) : M (step * linebuf) :=
  if starts_empty_or_ws (lb_mem lb) then ret (Continue, lb)
  else
    let parsed := parse_line (lb_mem lb) MAX_ARGS in
    let lb := mkLinebuf (lb_alloc lb) (lb_cap lb) (fst parsed) in
    let argc := argc_of parsed in
    let argv := args_of parsed in
    if (argc =? 0)%Z then ret (Continue, lb)
    else if streq (argv0 argv) (lit "exit") then ret (Break, lb)
    else if streq (argv0 argv) (lit "cd") then
      builtin_cd argv argc ;;; ret (Continue, lb)
    else
      execute_external wm argv ;;; ret (Continue, lb).

(** One turn of the [while (1)] of [main]: [Continue] for reaching the end
    of the body or [continue], [Break] for [break]. *)
Definition cycle (lb : linebuf) : M (step * linebuf) :=
  r <- sys_write STDOUT_FILENO (firstn PROMPT_LEN PROMPT) ;;
  if (r <? 0)%Z then perror (lit "write") ;;; ret (Break, lb)
  else
    rl <- read_line lb ;;
    if (fst rl <? 0)%Z
    then write_chr STDOUT_FILENO LF ;;; ret (Break, snd rl)
    else run_line (snd rl).

(** The loop, for at most [fuel] turns: [None] when the turns run out
    before a [break]. *)
Fixpoint main_loop (fuel : nat) (lb : linebuf) : M (option linebuf) :=
  match fuel with
  | O => ret None
  | S f =>
      r <- cycle lb ;;
      match r with
      | (Break, lb') => ret (Some lb')
      | (Continue, lb') => main_loop f lb'
      end
  end.

(** [main]: the exit code of the shell, when the loop ends within [fuel]
    turns.  [free(line)] has no effect the model observes. *)
Definition main (fuel : nat) : M (option Z) :=
  r <- main_loop fuel no_line ;;
  match r with
  | None => ret None
  | Some _ => ret (Some 0%Z)
  end.

End Main.

(* ------------------------------------------------------------------ *)
(** ** The vocabulary of the properties

    [int_text], [fits], [prompted] and [parsed_buf] name what the code
    computes; the other definitions follow the wording of the
    specification. *)

(** What [write_int] sends to the descriptor, as one text. *)
Definition int_text (x : Z) : text :=
  if (x =? 0)%Z then ["0"%char]
  else if (x <? 0)%Z then
    "-"%char :: (if (x =? INT_MIN)%Z then lit "2147483648"
                 else rev (digits_loop 32 (- x) []))
  else rev (digits_loop 32 x []).

(** Reading decimal notation: an optional minus sign, then digits. *)
Definition digit_value (c : ascii) : option Z :=
  let n := Z.of_nat (nat_of_ascii c) in
  if ((48 <=? n) && (n <=? 57))%Z then Some (n - 48)%Z else None.

Fixpoint digits_value (acc : Z) (s : text) : option Z :=
  match s with
  | [] => Some acc
  | c :: s' =>
      match digit_value c with
      | Some d => digits_value (10 * acc + d) s'
      | None => None
      end
  end.

Definition decimal_value (s : text) : option Z :=
  match s with
  | [] => None
  | c :: s' =>
      if Ascii.eqb c "-"%char
      then match s' with
           | [] => None
           | _ => option_map Z.opp (digits_value 0 s')
           end
      else digits_value 0 s
  end.

(** The termination outcome of the data model. *)
Inductive TerminationOutcome : Type :=
| ExitedNormally (code : Z)
| KilledBySignal (signalNumber : Z)
| Unknown.

(** How a status word is classified, in the order the reporter asks. *)
Definition classify (wm : wait_macros) (status : Z) : TerminationOutcome :=
  if WIFEXITED wm status then ExitedNormally (WEXITSTATUS wm status)
  else if WIFSIGNALED wm status then KilledBySignal (WTERMSIG wm status)
  else Unknown.

(** The message of the specification for each outcome. *)
Definition message (o : TerminationOutcome) : text :=
  match o with
  | ExitedNormally code =>
      lit "Command executed successfully. Return code: " ++ int_text code
  | KilledBySignal n =>
      lit "Command terminated by signal: " ++ int_text n
  | Unknown => lit "Command finished. (unknown status)"
  end.

(** The message for a command that was not found. *)
Definition unknown_command (cmd : text) : text :=
  lit "[" ++ cmd ++ lit "]: Unknown Command".

(** A candidate path fits the buffer: the test of [build_path]. *)
Definition fits (prefix cmd : text) : bool :=
  negb (size_t (str_len prefix + 1 + str_len cmd + 1) >? PATH_BUF)%Z.

Definition candidate (prefix cmd : text) : text := prefix ++ lit "/" ++ cmd.

(** A candidate qualifies in a world: it fits and the file is executable. *)
Definition qualifies (w : world) (prefix cmd : text) : bool :=
  fits prefix cmd && w_access w (w_cwd w) (candidate prefix cmd).

(** [HOME] is set and not empty. *)
Definition home_dir (w : world) : option text :=
  match w_home w with
  | Some (c :: h) => Some (c :: h)
  | _ => None
  end.

(** The world once the prompt has been written. *)
Definition prompted (w : world) : world :=
  emit STDOUT_FILENO (firstn PROMPT_LEN PROMPT) w.

(** The search order of the specification: the first qualifying
    candidate of [${HOME}/cmd] (when [HOME] is set and not empty) and
    [/bin/cmd]. *)
Definition first_match (w : world) (cmd : text) : option text :=
  let bin :=
    if qualifies w (lit "/bin") cmd then Some (candidate (lit "/bin") cmd)
    else None in
  match home_dir w with
  | Some h => if qualifies w h cmd then Some (candidate h cmd) else bin
  | None => bin
  end.

(** Both candidates of a command are too long for the path buffer. *)
Definition oversized (w : world) (cmd : text) : Prop :=
  fits (lit "/bin") cmd = false /\
  forall h, home_dir w = Some h -> fits h cmd = false.

(** The command name and [HOME] are strings in the memory of one process:
    the lengths the path builder adds up stay below the range of
    [size_t]. *)
Definition in_memory (w : world) (cmd : text) : Prop :=
  (str_len cmd + 6 < 2 ^ 64)%Z /\
  forall h, home_dir w = Some h -> (str_len h + str_len cmd + 2 < 2 ^ 64)%Z.

(** The line buffer after [parse_line] has written its terminators. *)
Definition parsed_buf (lb : linebuf) : linebuf :=
  mkLinebuf (lb_alloc lb) (lb_cap lb) (fst (parse_line (lb_mem lb) MAX_ARGS)).

(** The target of [cd]: the second token if there is one, else [HOME]. *)
Definition cd_target (w : world) (argv : list text) : option text :=
  match argv with
  | _ :: t :: _ => Some t
  | _ => w_home w
  end.

(** What [chdir] answers for a target: the new directory or an [errno]. *)
Definition chdir_outcome (w : world) (target : text) : text + Z :=
  match target with
  | [] => inr ENOENT
  | _ => w_chdir w (w_cwd w) target
  end.

(** The first allocation of the line buffer is needed and fails. *)
Definition alloc_fails (lb : linebuf) (w : world) : Prop :=
  (lb_alloc lb = false \/ lb_cap lb = 0%Z) /\ w_heap w INITIAL_BUF = false.

(** Before the line ends, a read fails or the buffer cannot grow.  [cap]
    and [got] are the capacity and the bytes read so far. *)
Inductive line_fails (heap : Z -> bool) : list rd -> Z -> text -> Prop :=
| line_fails_read e rest cap got :
    line_fails heap (RdErr e :: rest) cap got
| line_fails_grow c rest cap got :
    (size_t (str_len got + 2) >? cap)%Z = true ->
    heap (size_t (cap * 2)) = false ->
    line_fails heap (RdByte c :: rest) cap got
| line_fails_later c rest cap cap' got :
    c <> LF ->
    grow heap cap (str_len got) = Some cap' ->
    line_fails heap rest cap' (got ++ [c]) ->
    line_fails heap (RdByte c :: rest) cap got.

(** The input has ended where a line should start. *)
Definition input_ended (w : world) : Prop :=
  w_stdin w = [] \/ exists rest, w_stdin w = RdEof :: rest.

(** The conditions under which step 2 of the loop has no line to give:
    failure to allocate, failure to read or to grow, or end of input. *)
Definition no_line_read (lb : linebuf) (w : world) : Prop :=
  alloc_fails lb w \/
  line_fails (w_heap w) (w_stdin w) (start_cap lb) [] \/
  input_ended w.

(** A piece of code that reads nothing from standard input. *)
Definition keeps_stdin {A : Type} (c : M A) : Prop :=
  forall w, w_stdin (snd (c w)) = w_stdin w.

(** How [parse_line] may change the line, byte by byte: a byte stays, or
    a separator becomes the terminator. *)
Definition blanked (before after : text) : Prop :=
  Forall2 (fun x y => y = x \/ (y = NUL /\ is_ws x = true)) before after.

(** Offsets that go up strictly, none below [lo]. *)
Fixpoint increasing_from (lo : nat) (l : list nat) : Prop :=
  match l with
  | [] => True
  | x :: l' => lo <= x /\ increasing_from (S x) l'
  end.

(** Two worlds that differ at most in the two output streams and in
    [errno]. *)
Definition same_os (w w' : world) : Prop :=
  w_stdin w' = w_stdin w /\ w_wr_err w' = w_wr_err w /\
  w_home w' = w_home w /\ w_cwd w' = w_cwd w /\
  w_access w' = w_access w /\ w_chdir w' = w_chdir w /\
  w_heap w' = w_heap w /\ w_children w' = w_children w /\
  w_strerror w' = w_strerror w /\ w_trace w' = w_trace w.

(** Code that only writes (and may set [errno]). *)
Definition only_writes {A : Type} (c : M A) : Prop :=
  forall w, same_os w (snd (c w)).

(** Code under which both output streams only grow. *)
Definition appends {A : Type} (c : M A) : Prop :=
  forall w, exists out err,
    w_stdout (snd (c w)) = w_stdout w ++ out /\
    w_stderr (snd (c w)) = w_stderr w ++ err.

(* ------------------------------------------------------------------ *)
(** ** Sample data *)

(** [n] one-letter words, each followed by a space, and the terminator. *)
Definition line_of_words (n : nat) : text :=
  concat (repeat (lit "a ") n) ++ [NUL].

Definition feed (s : text) : list rd := map RdByte s.

(** A small world: [/bin/ls] is the one executable file, [/tmp] the one
    directory, every write succeeds, memory is plentiful. *)
Definition sample_world (input : list rd) (home : option text) : world :=
  mkWorld input [] [] (fun _ => None) home (lit "/")
    (fun _ p => streq p (lit "/bin/ls"))
    (fun _ t => if streq t (lit "/tmp") then inl t else inr ENOENT)
    (fun _ => true)
    [Spawned 7 None (inl 768%Z)]
    0%Z
    (fun e => if (e =? ENOENT)%Z then lit "No such file or directory"
              else lit "Unknown error")
    [].

(** A world whose reads are given and whose heap refuses every block
    above [limit] bytes. *)
Definition stingy_world (input : list rd) (limit : Z) : world :=
  mkWorld input [] [] (fun _ => None) None (lit "/")
    (fun _ _ => false) (fun _ _ => inr ENOENT)
    (fun n => (n <=? limit)%Z) [] 0%Z (fun _ => lit "Unknown error") [].

(** A directory name of 4093 bytes, and a command name of 4092. *)
Definition long_home : text := "/"%char :: repeat "a"%char 4092.

Definition long_name : text := concat (repeat (lit "./") 2043) ++ lit "bin/ls".

(** A world in which every file is executable and every directory can be
    entered. *)
Definition permissive_world (home : option text) : world :=
  mkWorld [] [] [] (fun _ => None) home (lit "/")
    (fun _ _ => true)
    (fun _ t => inl t)
    (fun _ => true) [] 0%Z (fun _ => lit "Unknown error") [].

(** The small world with descriptor 2 closed: every write to standard
    error fails with [EBADF]. *)
Definition closed_stderr_world (home : option text) : world :=
  mkWorld [] [] []
    (fun fd => if (fd =? STDERR_FILENO)%Z then Some EBADF else None)
    home (lit "/")
    (fun _ p => streq p (lit "/bin/ls"))
    (fun _ t => if streq t (lit "/tmp") then inl t else inr ENOENT)
    (fun _ => true) [] 0%Z
    (fun e => if (e =? ENOENT)%Z then lit "No such file or directory"
              else lit "Unknown error")
    [].

(* ================================================================== *)
(** * Properties *)

(** ** Memory and C strings *)

Lemma take_drop_while p s : take_while p s ++ drop_while p s = s.
Proof.
  induction s as [|c s IH]; simpl; [reflexivity|].
  destruct (p c); simpl; [now rewrite IH | reflexivity].
Qed.

Lemma take_while_all p s : forallb p (take_while p s) = true.
Proof.
  induction s as [|c s IH]; simpl; [reflexivity|].
  destruct (p c) eqn:E; simpl; [now rewrite E | reflexivity].
Qed.

Lemma drop_while_head p s :
  match drop_while p s with [] => True | c :: _ => p c = false end.
Proof.
  induction s as [|c s IH]; simpl; [exact I|].
  destruct (p c) eqn:E; [exact IH | exact E].
Qed.

Lemma take_while_app_all p a b :
  forallb p a = true -> take_while p (a ++ b) = a ++ take_while p b.
Proof.
  induction a as [|c a IH]; simpl; intros H; [reflexivity|].
  apply andb_prop in H as [Hc Ha]. now rewrite Hc, IH.
Qed.

Lemma take_while_stop p a c b :
  forallb p a = true -> p c = false -> take_while p (a ++ c :: b) = a.
Proof.
  intros Ha Hc. rewrite take_while_app_all by exact Ha.
  simpl. rewrite Hc. apply app_nil_r.
Qed.

Lemma forallb_weaken (p q : ascii -> bool) s :
  (forall c, p c = true -> q c = true) ->
  forallb p s = true -> forallb q s = true.
Proof.
  intros Hpq. induction s as [|c s IH]; simpl; [reflexivity|].
  intros H. apply andb_prop in H as [Hc Hs]. now rewrite (Hpq _ Hc), IH.
Qed.

Lemma is_ws_not_nul c : is_ws c = true -> is_nul c = false.
Proof.
  unfold is_ws, is_nul. intros H.
  destruct (Ascii.eqb c NUL) eqn:E; [|reflexivity].
  apply Ascii.eqb_eq in E. subst c. discriminate H.
Qed.

Lemma is_tokchar_not_nul c : is_tokchar c = true -> negb (is_nul c) = true.
Proof. unfold is_tokchar. intros H. now apply andb_prop in H. Qed.

Lemma is_tokchar_not_ws c : is_tokchar c = true -> negb (is_ws c) = true.
Proof. unfold is_tokchar. intros H. now apply andb_prop in H. Qed.

Lemma peek_at pre suf :
  peek (pre ++ suf) (length pre) = hd NUL suf.
Proof.
  unfold peek. rewrite app_nth2 by lia. rewrite Nat.sub_diag.
  now destruct suf.
Qed.

Lemma length_poke m i c : length (poke m i c) = length m.
Proof.
  revert i. induction m as [|x m IH]; intros [|i]; simpl; auto.
Qed.

Lemma poke_at pre x suf c :
  poke (pre ++ x :: suf) (length pre) c = pre ++ c :: suf.
Proof.
  induction pre as [|y pre IH]; simpl; [reflexivity | now rewrite IH].
Qed.

Lemma cstr_at_app pre suf : cstr_at (pre ++ suf) (length pre) = cstr suf.
Proof.
  unfold cstr_at. rewrite skipn_app, Nat.sub_diag, skipn_all. reflexivity.
Qed.

Lemma cstr_closed t r :
  forallb (fun c => negb (is_nul c)) t = true -> cstr (t ++ NUL :: r) = t.
Proof. intros H. unfold cstr. now apply take_while_stop. Qed.

Lemma cstr_open t r :
  forallb (fun c => negb (is_nul c)) t = true -> cstr (t ++ r) = t ++ cstr r.
Proof. intros H. unfold cstr. now apply take_while_app_all. Qed.

(** The walking loops, seen from the split of the block at the pointer. *)
Lemma advance_at p :
  p NUL = false ->
  forall suf fuel pre,
    length suf <= fuel ->
    advance p fuel (pre ++ suf) (length pre)
    = length pre + length (take_while p suf).
Proof.
  intros Hnul. induction suf as [|c suf IH]; intros fuel pre Hfuel.
  - destruct fuel; simpl; [lia|].
    rewrite peek_at. simpl. rewrite Hnul. lia.
  - destruct fuel as [|fuel]; simpl in Hfuel; [lia|].
    simpl. rewrite peek_at. simpl.
    destruct (p c) eqn:E; [|simpl; lia].
    replace (pre ++ c :: suf) with ((pre ++ [c]) ++ suf)
      by (rewrite <- app_assoc; reflexivity).
    replace (S (length pre)) with (length (pre ++ [c]))
      by (rewrite length_app; simpl; lia).
    rewrite IH by lia. rewrite length_app. simpl. lia.
Qed.

Lemma skip_ws_at pre suf :
  skip_ws (pre ++ suf) (length pre)
  = length pre + length (take_while is_ws suf).
Proof.
  unfold skip_ws. apply advance_at; [reflexivity|].
  rewrite length_app. lia.
Qed.

Lemma scan_token_at pre suf :
  scan_token (pre ++ suf) (length pre)
  = length pre + length (take_while is_tokchar suf).
Proof.
  unfold scan_token. apply advance_at; [reflexivity|].
  rewrite length_app. lia.
Qed.

(** ** The reference definition [words] *)

Lemma runs_skip_ws pre s :
  forallb is_ws pre = true -> runs [] (pre ++ s) = runs [] s.
Proof.
  induction pre as [|c pre IH]; simpl; intros H; [reflexivity|].
  apply andb_prop in H as [Hc Hp]. rewrite Hc. auto.
Qed.

Lemma runs_collect tok : forall cur s,
  forallb (fun c => negb (is_ws c)) tok = true ->
  runs cur (tok ++ s) = runs (cur ++ tok) s.
Proof.
  induction tok as [|c tok IH]; simpl; intros cur s H.
  - now rewrite app_nil_r.
  - apply andb_prop in H as [Hc Ht]. apply negb_true_iff in Hc. rewrite Hc.
    rewrite IH by exact Ht. now rewrite <- app_assoc.
Qed.

Lemma words_ws s : forallb is_ws s = true -> words s = [].
Proof.
  intros H. unfold words. rewrite <- (app_nil_r s).
  now rewrite runs_skip_ws.
Qed.

Lemma words_last tok :
  tok <> [] -> forallb (fun c => negb (is_ws c)) tok = true ->
  words tok = [tok].
Proof.
  intros Hne H. unfold words. rewrite <- (app_nil_r tok) at 1.
  rewrite runs_collect by exact H. simpl. now destruct tok.
Qed.

Lemma words_step pre tok d rest :
  forallb is_ws pre = true ->
  tok <> [] -> forallb (fun c => negb (is_ws c)) tok = true ->
  is_ws d = true ->
  words (pre ++ tok ++ d :: rest) = tok :: words rest.
Proof.
  intros Hpre Hne Htok Hd. unfold words.
  rewrite runs_skip_ws by exact Hpre.
  rewrite runs_collect by exact Htok. simpl. rewrite Hd.
  now destruct tok.
Qed.

(** ** One turn of the loop of [parse_line], at the split of the line *)

Lemma take_while_prefix p a b :
  forallb p a = true ->
  match b with [] => True | c :: _ => p c = false end ->
  take_while p (a ++ b) = a.
Proof.
  intros Ha Hb. destruct b as [|c b].
  - rewrite take_while_app_all by exact Ha. apply app_nil_r.
  - now apply take_while_stop.
Qed.

Lemma peek_after pre tok rest :
  peek (pre ++ tok ++ rest) (length pre + length tok) = hd NUL rest.
Proof.
  rewrite app_assoc, <- length_app. apply peek_at.
Qed.

Lemma token_head_not_nul tok rest :
  tok <> [] -> forallb is_tokchar tok = true ->
  negb (is_nul (hd NUL (tok ++ rest))) = true.
Proof.
  destruct tok as [|c tok]; [congruence|]. simpl. intros _ H.
  apply andb_prop in H as [Hc _]. now apply is_tokchar_not_nul.
Qed.

(** The token runs to the end of the string: it is stored and the loop
    is left by [break]. *)
Lemma parse_loop_last f max pre tok rest argv :
  tok <> [] -> forallb is_tokchar tok = true ->
  is_nul (hd NUL rest) = true ->
  (Z.of_nat (length argv) <? max - 1)%Z = true ->
  parse_loop (S f) max (pre ++ tok ++ rest) (length pre) argv
  = (pre ++ tok ++ rest, argv ++ [length pre]).
Proof.
  intros Hne Htok Hend Hlim. simpl.
  rewrite peek_at, (token_head_not_nul tok rest Hne Htok), Hlim. simpl.
  rewrite scan_token_at, take_while_prefix; [|exact Htok|].
  - now rewrite peek_after, Hend.
  - destruct rest as [|c rest]; [exact I|]. simpl in Hend.
    unfold is_tokchar. now rewrite Hend.
Qed.

(** The token ends at a separator: the separator is overwritten with the
    terminator, the separators after it are skipped, and the loop goes
    on from there. *)
Lemma parse_loop_more f max pre tok d wsr suf argv :
  tok <> [] -> forallb is_tokchar tok = true ->
  is_ws d = true -> forallb is_ws wsr = true ->
  is_ws (hd NUL suf) = false ->
  (Z.of_nat (length argv) <? max - 1)%Z = true ->
  parse_loop (S f) max (pre ++ tok ++ d :: wsr ++ suf) (length pre) argv
  = parse_loop f max ((pre ++ tok ++ NUL :: wsr) ++ suf)
      (length (pre ++ tok ++ NUL :: wsr)) (argv ++ [length pre]).
Proof.
  intros Hne Htok Hd Hws Hsuf Hlim. simpl.
  rewrite peek_at, (token_head_not_nul tok _ Hne Htok), Hlim. simpl.
  rewrite scan_token_at, take_while_prefix; [|exact Htok|].
  2:{ simpl. unfold is_tokchar. rewrite Hd.
      now rewrite andb_false_r. }
  rewrite peek_after. simpl. rewrite (is_ws_not_nul _ Hd).
  assert (Hpoke : poke (pre ++ tok ++ d :: wsr ++ suf)
                    (length pre + length tok) NUL
                  = (pre ++ tok ++ [NUL]) ++ wsr ++ suf).
  { rewrite app_assoc, <- length_app, poke_at.
    now rewrite <- !app_assoc. }
  rewrite Hpoke.
  replace (S (length pre + length tok)) with (length (pre ++ tok ++ [NUL]))
    by (rewrite !length_app; simpl; lia).
  rewrite skip_ws_at, take_while_prefix; [|exact Hws|].
  2:{ destruct suf as [|c suf]; [exact I | exact Hsuf]. }
  f_equal.
  - now rewrite <- !app_assoc.
  - rewrite ?length_app. simpl. rewrite ?length_app. simpl. lia.
Qed.

(** What a string that starts with a token looks like. *)
Lemma split_token c s :
  is_nul c = false -> is_ws c = false ->
  exists tok rest,
    c :: s = tok ++ rest /\ tok <> [] /\ forallb is_tokchar tok = true /\
    (is_nul (hd NUL rest) = true \/
     exists d wsr suf,
       rest = d :: wsr ++ suf /\ is_ws d = true /\
       forallb is_ws wsr = true /\ is_ws (hd NUL suf) = false).
Proof.
  intros Hn Hw.
  exists (take_while is_tokchar (c :: s)), (drop_while is_tokchar (c :: s)).
  split; [symmetry; apply take_drop_while|].
  split; [simpl; unfold is_tokchar; rewrite Hn, Hw; discriminate|].
  split; [apply take_while_all|].
  pose proof (drop_while_head is_tokchar (c :: s)) as Hh.
  destruct (drop_while is_tokchar (c :: s)) as [|d rest]; [now left|].
  simpl. destruct (is_nul d) eqn:Ed; [now left|]. right.
  exists d, (take_while is_ws rest), (drop_while is_ws rest).
  split; [now rewrite take_drop_while|].
  split.
  { unfold is_tokchar in Hh. rewrite Ed in Hh. simpl in Hh.
    now apply negb_false_iff in Hh. }
  split; [apply take_while_all|].
  pose proof (drop_while_head is_ws rest) as Hr.
  destruct (drop_while is_ws rest); [reflexivity | exact Hr].
Qed.

Lemma tokchars_nul_free tok :
  forallb is_tokchar tok = true ->
  forallb (fun c => negb (is_nul c)) tok = true.
Proof. apply forallb_weaken. exact is_tokchar_not_nul. Qed.

Lemma tokchars_ws_free tok :
  forallb is_tokchar tok = true ->
  forallb (fun c => negb (is_ws c)) tok = true.
Proof. apply forallb_weaken. exact is_tokchar_not_ws. Qed.

Lemma ws_nul_free s :
  forallb is_ws s = true -> forallb (fun c => negb (is_nul c)) s = true.
Proof.
  apply forallb_weaken. intros c H. now rewrite (is_ws_not_nul _ H).
Qed.

Lemma cstr_nul_head s : is_nul (hd NUL s) = true -> cstr s = [].
Proof.
  destruct s as [|c s]; [reflexivity|]. simpl. unfold cstr. simpl.
  now intros ->.
Qed.

(** ** The loop of [parse_line] against the reference definition *)

Lemma parse_loop_words max : forall fuel pre suf argv toks,
  length suf <= fuel ->
  is_ws (hd NUL suf) = false ->
  (forall x, map (cstr_at (pre ++ x)) argv = toks) ->
  args_of (parse_loop fuel max (pre ++ suf) (length pre) argv)
  = toks ++ firstn (Z.to_nat (max - 1) - length argv) (words (cstr suf)).
Proof.
  induction fuel as [|f IH]; intros pre suf argv toks Hfuel Hstart Hargv.
  - destruct suf; [|simpl in Hfuel; lia].
    unfold args_of. simpl. rewrite Hargv, firstn_nil. now rewrite app_nil_r.
  - destruct (is_nul (hd NUL suf)) eqn:Enul.
    { (* the string has ended *)
      rewrite (cstr_nul_head _ Enul). simpl. rewrite peek_at, Enul. simpl.
      unfold args_of. simpl. rewrite Hargv, firstn_nil.
      now rewrite app_nil_r. }
    destruct (Z.of_nat (length argv) <? max - 1)%Z eqn:Elim.
    2:{ (* no room left in [argv] *)
      simpl. rewrite peek_at, Enul, Elim. simpl.
      apply Z.ltb_ge in Elim.
      replace (Z.to_nat (max - 1) - length argv) with 0 by lia.
      unfold args_of. simpl. rewrite Hargv. now rewrite app_nil_r. }
    assert (Hroom : Z.to_nat (max - 1) - length argv
                    = S (Z.to_nat (max - 1) - length (argv ++ [length pre]))).
    { apply Z.ltb_lt in Elim. rewrite length_app. simpl. lia. }
    destruct suf as [|c s]; [discriminate Enul|]. simpl in Enul, Hstart.
    destruct (split_token c s Enul Hstart)
      as (tok & rest & Hsplit & Hne & Htok & Hrest).
    rewrite Hsplit.
    assert (Hi : cstr_at (pre ++ tok ++ rest) (length pre) = cstr (tok ++ rest))
      by apply cstr_at_app.
    destruct Hrest as [Hend | (d & wsr & suf & -> & Hd & Hws & Hsuf)].
    + (* last token *)
      rewrite parse_loop_last by assumption.
      unfold args_of. simpl. rewrite map_app, Hargv. simpl. rewrite Hi.
      rewrite cstr_open by now apply tokchars_nul_free.
      rewrite (cstr_nul_head _ Hend), app_nil_r.
      rewrite words_last by (auto using tokchars_ws_free).
      rewrite Hroom. simpl. now rewrite firstn_nil.
    + (* a token followed by separators *)
      rewrite parse_loop_more by assumption.
      assert (Hlen : length suf <= f).
      { apply (f_equal (@length ascii)) in Hsplit. simpl in Hsplit, Hfuel.
        rewrite length_app in Hsplit. simpl in Hsplit.
        rewrite length_app in Hsplit.
        destruct tok; [congruence|]. simpl in Hsplit. lia. }
      rewrite (IH _ _ _ (toks ++ [tok]) Hlen Hsuf).
      * rewrite <- app_assoc. f_equal.
        rewrite cstr_open by now apply tokchars_nul_free.
        change (d :: wsr ++ suf) with ((d :: wsr) ++ suf).
        rewrite cstr_open
          by (apply ws_nul_free; simpl; now rewrite Hd, Hws).
        rewrite Hroom.
        change (tok ++ (d :: wsr) ++ cstr suf)
          with ([] ++ tok ++ d :: wsr ++ cstr suf).
        rewrite words_step by (auto using tokchars_ws_free).
        simpl. f_equal. f_equal.
        unfold words. now rewrite runs_skip_ws.
      * intros x. rewrite map_app. simpl. f_equal.
        -- rewrite <- app_assoc. apply Hargv.
        -- f_equal. rewrite <- !app_assoc. rewrite cstr_at_app.
           simpl. rewrite cstr_closed by now apply tokchars_nul_free.
           reflexivity.
Qed.

Lemma parse_line_split max pre suf :
  forallb is_ws pre = true -> is_ws (hd NUL suf) = false ->
  args_of (parse_line (pre ++ suf) max)
  = firstn (Z.to_nat (max - 1)) (words (cstr suf)).
Proof.
  intros Hpre Hsuf. unfold parse_line.
  assert (Hskip : skip_ws (pre ++ suf) 0 = length pre).
  { change (skip_ws (pre ++ suf) 0)
      with (skip_ws ([] ++ pre ++ suf) (length (@nil ascii))).
    rewrite skip_ws_at, take_while_prefix; [reflexivity | exact Hpre |].
    destruct suf; [exact I | exact Hsuf]. }
  rewrite Hskip.
  rewrite (parse_loop_words max (length (pre ++ suf)) pre suf [] []).
  - simpl. now rewrite Nat.sub_0_r.
  - rewrite length_app. lia.
  - exact Hsuf.
  - reflexivity.
Qed.

(** [parse_line] stores the first [max_args - 1] words of the C string in
    the line buffer. *)
Lemma parse_line_words line max :
  args_of (parse_line line max)
  = firstn (Z.to_nat (max - 1)) (words (cstr line)).
Proof.
  rewrite <- (take_drop_while is_ws line).
  assert (Hpre : forallb is_ws (take_while is_ws line) = true)
    by apply take_while_all.
  rewrite parse_line_split.
  - rewrite (cstr_open (take_while is_ws line)) by now apply ws_nul_free.
    unfold words at 2. now rewrite runs_skip_ws.
  - exact Hpre.
  - pose proof (drop_while_head is_ws line) as H.
    destruct (drop_while is_ws line); [reflexivity | exact H].
Qed.

(** ** [words] is the one list of maximal runs *)

Lemma words_skip_first d s : is_ws d = true -> words (d :: s) = words s.
Proof. intros H. unfold words. simpl. now rewrite H. Qed.

Lemma Runs_unique s ts : Runs s ts -> ts = words s.
Proof.
  induction 1 as [s Hs | pre tok rest ts Hpre Hne Htok Hrest _ IH].
  - symmetry. now apply words_ws.
  - subst ts. destruct rest as [|d rest].
    + unfold words. rewrite runs_skip_ws, runs_collect by assumption.
      simpl. now destruct tok.
    + rewrite words_step by assumption. now rewrite words_skip_first.
Qed.

Lemma Runs_words_bounded n : forall s, length s <= n -> Runs s (words s).
Proof.
  induction n as [|n IH]; intros s Hlen.
  - destruct s; [|simpl in Hlen; lia]. now apply Runs_none.
  - set (pre := take_while is_ws s).
    assert (Hpre : forallb is_ws pre = true) by apply take_while_all.
    pose proof (take_drop_while is_ws s) as Hs. fold pre in Hs.
    pose proof (drop_while_head is_ws s) as Hhead.
    destruct (drop_while is_ws s) as [|c s1] eqn:Edrop.
    { assert (Hall : forallb is_ws s = true)
        by (rewrite <- Hs, app_nil_r; exact Hpre).
      rewrite (words_ws s Hall). now apply Runs_none. }
    set (nws := fun c => negb (is_ws c)).
    assert (Htok : forallb nws (take_while nws (c :: s1)) = true)
      by apply take_while_all.
    assert (Hcut : take_while nws (c :: s1) ++ drop_while nws (c :: s1)
                   = c :: s1) by apply take_drop_while.
    assert (Hne : take_while nws (c :: s1) <> []).
    { unfold nws. simpl. rewrite Hhead. discriminate. }
    pose proof (drop_while_head nws (c :: s1)) as Hrest.
    remember (take_while nws (c :: s1)) as tok eqn:Etok.
    remember (drop_while nws (c :: s1)) as rest eqn:Erest.
    clear Etok Erest.
    assert (Hrest' : match rest with
                     | [] => True | d :: _ => is_ws d = true end).
    { destruct rest; [exact I|]. now apply negb_false_iff in Hrest. }
    assert (Hshort : length rest <= n).
    { apply (f_equal (@length ascii)) in Hs, Hcut.
      rewrite length_app in Hs, Hcut.
      change (length (c :: s1)) with (S (length s1)) in Hs, Hcut.
      assert (length tok <> 0) by (destruct tok; [congruence | discriminate]).
      lia. }
    assert (Hw : words s = tok :: words rest).
    { rewrite <- Hs, <- Hcut. destruct rest as [|d rest'].
      - unfold words. rewrite runs_skip_ws, runs_collect by assumption.
        simpl. now destruct tok.
      - rewrite words_step by assumption. now rewrite words_skip_first. }
    rewrite Hw, <- Hs, <- Hcut.
    apply Runs_more; auto.
Qed.

Lemma Runs_words s : Runs s (words s).
Proof. now apply (Runs_words_bounded (length s)). Qed.

Lemma words_nonempty s : Forall (fun t => t <> []) (words s).
Proof.
  pose proof (Runs_words s) as H.
  induction H; constructor; auto.
Qed.

Lemma words_ws_free s :
  Forall (fun t => forallb (fun c => negb (is_ws c)) t = true) (words s).
Proof.
  pose proof (Runs_words s) as H.
  induction H; constructor; auto.
Qed.

(** ** [starts_empty_or_ws] *)

Lemma only_ws_from_at : forall suf fuel pre,
  length suf < fuel ->
  only_ws_from fuel (pre ++ suf) (length pre) = forallb is_ws (cstr suf).
Proof.
  induction suf as [|c suf IH]; intros fuel pre Hfuel;
    (destruct fuel as [|fuel]; [simpl in Hfuel; lia|]).
  - simpl. now rewrite peek_at.
  - simpl. rewrite peek_at. simpl. unfold cstr. simpl.
    destruct (is_nul c) eqn:En; simpl; [reflexivity|].
    destruct (is_ws c) eqn:Ew; simpl; [|reflexivity].
    replace (pre ++ c :: suf) with ((pre ++ [c]) ++ suf)
      by (rewrite <- app_assoc; reflexivity).
    replace (S (length pre)) with (length (pre ++ [c]))
      by (rewrite length_app; simpl; lia).
    simpl in Hfuel. apply IH. lia.
Qed.

Lemma starts_empty_or_ws_spec m :
  starts_empty_or_ws m = forallb is_ws (cstr m).
Proof.
  unfold starts_empty_or_ws.
  apply (only_ws_from_at m (S (length m)) []). lia.
Qed.

(** ** Writing to the world *)

Lemma wr_err_emit fd data w : w_wr_err (emit fd data w) = w_wr_err w.
Proof.
  unfold emit. destruct (fd =? STDOUT_FILENO)%Z; [reflexivity|].
  now destruct (fd =? STDERR_FILENO)%Z.
Qed.

Lemma emit_nil fd w : emit fd [] w = w.
Proof.
  unfold emit, set_stdout, set_stderr. destruct w; simpl.
  destruct (fd =? STDOUT_FILENO)%Z; [now rewrite app_nil_r|].
  destruct (fd =? STDERR_FILENO)%Z; [now rewrite app_nil_r | reflexivity].
Qed.

Lemma emit_emit fd a b w : emit fd b (emit fd a w) = emit fd (a ++ b) w.
Proof.
  unfold emit, set_stdout, set_stderr.
  destruct (fd =? STDOUT_FILENO)%Z; simpl; [now rewrite app_assoc|].
  destruct (fd =? STDERR_FILENO)%Z; simpl; [now rewrite app_assoc|].
  reflexivity.
Qed.

Lemma sys_write_ok fd data w :
  w_wr_err w fd = None ->
  sys_write fd data w = (Z.of_nat (length data), emit fd data w).
Proof. intros H. unfold sys_write. now rewrite H. Qed.

Lemma write_str_ok fd s w :
  w_wr_err w fd = None -> write_str fd s w = (tt, emit fd s w).
Proof. intros H. unfold write_str, bind. now rewrite sys_write_ok. Qed.

Lemma write_chr_ok fd c w :
  w_wr_err w fd = None -> write_chr fd c w = (tt, emit fd [c] w).
Proof. intros H. unfold write_chr, bind. now rewrite sys_write_ok. Qed.

(** ** The turn of [main] after a successful prompt *)

Lemma cycle_read wm lb w n lb' w2 :
  w_wr_err w STDOUT_FILENO = None ->
  read_line lb (prompted w) = ((n, lb'), w2) ->
  cycle wm lb w
  = if (n <? 0)%Z
    then (write_chr STDOUT_FILENO LF ;;; ret (Break, lb')) w2
    else run_line wm lb' w2.
Proof.
  intros Hout Hread. unfold cycle, bind at 1.
  rewrite sys_write_ok by exact Hout.
  change (Z.of_nat (length (firstn PROMPT_LEN PROMPT)) <? 0)%Z with false.
  cbv beta iota. unfold bind at 1. fold (prompted w). rewrite Hread.
  cbv beta iota. cbn [fst snd]. now destruct (n <? 0)%Z.
Qed.

Lemma run_line_blank wm lb w :
  forallb is_ws (cstr (lb_mem lb)) = true ->
  run_line wm lb w = ((Continue, lb), w).
Proof.
  intros H. unfold run_line. now rewrite starts_empty_or_ws_spec, H.
Qed.

Lemma cycle_blank wm lb w n lb' w2 :
  w_wr_err w STDOUT_FILENO = None ->
  read_line lb (prompted w) = ((n, lb'), w2) ->
  (0 <= n)%Z ->
  forallb is_ws (cstr (lb_mem lb')) = true ->
  cycle wm lb w = ((Continue, lb'), w2).
Proof.
  intros Hout Hread Hn Hblank.
  rewrite (cycle_read wm lb w n lb' w2 Hout Hread).
  destruct (n <? 0)%Z eqn:E; [apply Z.ltb_lt in E; lia|].
  now apply run_line_blank.
Qed.

(** ** The tokenizer *)

Lemma tokenize_words line :
  tokenize line = firstn 127 (words (cstr line)).
Proof. unfold tokenize. now rewrite parse_line_words. Qed.

(** C3 (as amended).  For every line, the tokens are the first 127 of the
    maximal runs of non-separator characters of the line, in order; all of
    them when there are at most 127.  No token is empty or holds a
    separator; the line "  ls   -l  " gives "ls" and "-l"; an empty or
    blank line gives no token, and the turn of the loop that reads it
    dispatches nothing. *)
Theorem tokenize_maximal_runs (line : text) :
  exists ws,
    Runs (cstr line) ws /\
    (forall ws', Runs (cstr line) ws' -> ws' = ws) /\
    tokenize line = firstn 127 ws /\
    (length ws <= 127 -> tokenize line = ws) /\
    Forall (fun t => t <> []) (tokenize line) /\
    Forall (fun t => forallb (fun c => negb (is_ws c)) t = true)
      (tokenize line) /\
    (forall s junk,
       forallb (fun c => negb (is_nul c)) s = true ->
       line = s ++ NUL :: junk -> tokenize line = firstn 127 (words s)) /\
    tokenize (lit "  ls   -l  " ++ [NUL]) = [lit "ls"; lit "-l"] /\
    (forallb is_ws (cstr line) = true ->
     tokenize line = [] /\
     forall wm lb w n lb' w2,
       w_wr_err w STDOUT_FILENO = None ->
       read_line lb (prompted w) = ((n, lb'), w2) ->
       (0 <= n)%Z -> lb_mem lb' = line ->
       cycle wm lb w = ((Continue, lb'), w2)).
Proof.
  exists (words (cstr line)).
  split; [apply Runs_words|].
  split; [apply Runs_unique|].
  split; [apply tokenize_words|].
  split; [intros H; rewrite tokenize_words; now apply firstn_all2|].
  split.
  { rewrite tokenize_words.
    pose proof (words_nonempty (cstr line)) as H.
    rewrite Forall_forall in *. intros t Ht. apply H.
    rewrite <- (firstn_skipn 127 (words (cstr line))).
    apply in_or_app. now left. }
  split.
  { rewrite tokenize_words.
    pose proof (words_ws_free (cstr line)) as H.
    rewrite Forall_forall in *. intros t Ht. apply H.
    rewrite <- (firstn_skipn 127 (words (cstr line))).
    apply in_or_app. now left. }
  split.
  { intros s junk Hs ->. rewrite tokenize_words.
    now rewrite cstr_closed. }
  split; [reflexivity|].
  intros Hblank. split.
  - rewrite tokenize_words, words_ws by exact Hblank. reflexivity.
  - intros wm lb w n lb' w2 Hout Hread Hn Hline. subst line.
    now apply (cycle_blank wm lb w n lb' w2).
Qed.

Lemma tokenize_maximal_runs_witness :
  exists ws,
    Runs (cstr (lit "  ls   -l  " ++ [NUL])) ws /\
    tokenize (lit "  ls   -l  " ++ [NUL]) = firstn 127 ws.
Proof.
  destruct (tokenize_maximal_runs (lit "  ls   -l  " ++ [NUL]))
    as (ws & Hruns & _ & Htok & _).
  exists ws. split; assumption.
Defined.

(** C3, as it is written, fails on a line of 200 words: the tokens are not
    all of its maximal runs. *)
Lemma tokenize_not_all_runs :
  length (words (cstr (line_of_words 200))) = 200 /\
  length (tokenize (line_of_words 200)) = 127 /\
  tokenize (line_of_words 200) <> words (cstr (line_of_words 200)).
Proof.
  split; [vm_compute; reflexivity|].
  split; [vm_compute; reflexivity|].
  intros H. apply (f_equal (@length text)) in H.
  vm_compute in H. discriminate H.
Qed.

(** C7 (as amended).  The tokenizer keeps at most [max_args - 1] tokens,
    127 for the 128 slots of [argv]: for every line the result is the
    leading 127 words, so a line with more words is cut to them and the
    rest is dropped without any failure. *)
Theorem tokenize_truncates (line : text) :
  (forall max_args,
     args_of (parse_line line max_args)
     = firstn (Z.to_nat (max_args - 1)) (words (cstr line))) /\
  tokenize line = firstn 127 (words (cstr line)) /\
  length (tokenize line) <= 127 /\
  (127 < length (words (cstr line)) -> length (tokenize line) = 127).
Proof.
  split; [intros max_args; apply parse_line_words|].
  split; [apply tokenize_words|].
  rewrite tokenize_words, length_firstn. split; lia.
Qed.

Lemma tokenize_truncates_witness :
  127 < length (words (cstr (line_of_words 130))) /\
  length (tokenize (line_of_words 130)) = 127.
Proof.
  assert (H : 127 < length (words (cstr (line_of_words 130))))
    by (vm_compute; lia).
  split; [exact H|].
  exact (proj2 (proj2 (proj2 (tokenize_truncates (line_of_words 130)))) H).
Defined.

(** C7, as it is written, fails on a line of exactly 128 words: none of
    them exceeds a maximum of 128, and yet the last one is dropped. *)
Lemma tokenize_128_words_keeps_127 :
  length (words (cstr (line_of_words 128))) = 128 /\
  length (tokenize (line_of_words 128)) = 127 /\
  tokenize (line_of_words 128)
  <> firstn (Z.to_nat MAX_ARGS) (words (cstr (line_of_words 128))).
Proof.
  split; [vm_compute; reflexivity|].
  split; [vm_compute; reflexivity|].
  intros H. apply (f_equal (@length text)) in H.
  vm_compute in H. discriminate H.
Qed.

(** ** The resolver *)

Lemma streq_refl a : streq a a = true.
Proof.
  induction a as [|c a IH]; simpl; [reflexivity|].
  now rewrite Ascii.eqb_refl, IH.
Qed.

Lemma streq_eq a : forall b, streq a b = true <-> a = b.
Proof.
  induction a as [|x a IH]; intros [|y b]; simpl; split; intros H;
    try reflexivity; try discriminate.
  - apply andb_prop in H as [Hxy Hab]. apply Ascii.eqb_eq in Hxy.
    apply IH in Hab. now subst.
  - injection H as -> ->. now rewrite Ascii.eqb_refl, streq_refl.
Qed.

Lemma build_path_fits prefix cmd :
  build_path PATH_BUF prefix cmd
  = if fits prefix cmd then Some (candidate prefix cmd) else None.
Proof.
  unfold build_path, fits, candidate.
  now destruct (size_t (str_len prefix + 1 + str_len cmd + 1) >? PATH_BUF)%Z.
Qed.

(** One candidate: build the path, then ask [access]. *)
Lemma attempt_qualifies prefix cmd w :
  match build_path PATH_BUF prefix cmd with
  | Some out => ok <- sys_access_x out ;; ret (if ok then Some out else None)
  | None => ret None
  end w
  = (if qualifies w prefix cmd then Some (candidate prefix cmd) else None, w).
Proof.
  rewrite build_path_fits. unfold qualifies.
  destruct (fits prefix cmd); [|reflexivity].
  unfold bind, sys_access_x, ret. cbv beta iota.
  now destruct (w_access w (w_cwd w) (candidate prefix cmd)).
Qed.

(** The code against the search order of the specification. *)
Lemma find_executable_first_match cmd w :
  find_executable cmd PATH_BUF w = (first_match w cmd, w).
Proof.
  unfold find_executable, first_match, home_dir.
  unfold bind at 1. unfold sys_getenv_HOME at 1.
  destruct (w_home w) as [[|c h]|]; unfold bind at 1.
  - unfold ret at 1. apply attempt_qualifies.
  - rewrite attempt_qualifies.
    destruct (qualifies w (c :: h) cmd); [reflexivity|].
    apply attempt_qualifies.
  - unfold ret at 1. apply attempt_qualifies.
Qed.

Lemma home_dir_none w :
  home_dir w = None <-> w_home w = None \/ w_home w = Some [].
Proof.
  unfold home_dir. destruct (w_home w) as [[|c h]|]; split; intros H;
    auto; try discriminate; destruct H; discriminate.
Qed.

Lemma qualifies_executable w prefix cmd :
  qualifies w prefix cmd = true ->
  w_access w (w_cwd w) (candidate prefix cmd) = true.
Proof. unfold qualifies. intros H. now apply andb_prop in H. Qed.

(** C1 (as amended).  Resolution tries [${HOME}/cmd] first, and only when
    [HOME] is set and not empty, then [/bin/cmd]; a candidate qualifies
    only if its path fits the 4096-byte buffer and is executable; the
    first qualifying candidate is the result, so the [HOME] one wins when
    both qualify; with [HOME] unset or empty only [/bin/cmd] is tried; the
    result is NotFound when neither qualifies.  The world is left as it
    was. *)
Theorem find_executable_order (w : world) (cmd : text) :
  let found := fst (find_executable cmd PATH_BUF w) in
  snd (find_executable cmd PATH_BUF w) = w /\
  found = first_match w cmd /\
  (forall h, home_dir w = Some h -> qualifies w h cmd = true ->
     found = Some (candidate h cmd)) /\
  (forall h, home_dir w = Some h -> qualifies w h cmd = false ->
     qualifies w (lit "/bin") cmd = true ->
     found = Some (candidate (lit "/bin") cmd)) /\
  (w_home w = None \/ w_home w = Some [] ->
     found = if qualifies w (lit "/bin") cmd
             then Some (candidate (lit "/bin") cmd) else None) /\
  (forall path, found = Some path ->
     w_access w (w_cwd w) path = true /\
     (path = candidate (lit "/bin") cmd \/
      exists h, home_dir w = Some h /\ path = candidate h cmd)) /\
  ((forall h, home_dir w = Some h -> qualifies w h cmd = false) ->
   qualifies w (lit "/bin") cmd = false -> found = None).
Proof.
  cbv zeta. rewrite find_executable_first_match. simpl fst. simpl snd.
  split; [reflexivity|].
  split; [reflexivity|].
  unfold first_match.
  split; [intros h Hh Hq; now rewrite Hh, Hq|].
  split; [intros h Hh Hq Hb; now rewrite Hh, Hq, Hb|].
  split; [intros Hh; apply home_dir_none in Hh; now rewrite Hh|].
  split.
  - intros path Hpath.
    destruct (home_dir w) as [h|] eqn:Hh.
    + destruct (qualifies w h cmd) eqn:Hq.
      * injection Hpath as <-. split; [now apply qualifies_executable|].
        right. now exists h.
      * destruct (qualifies w (lit "/bin") cmd) eqn:Hb; [|discriminate].
        injection Hpath as <-. split; [now apply qualifies_executable|].
        now left.
    + destruct (qualifies w (lit "/bin") cmd) eqn:Hb; [|discriminate].
      injection Hpath as <-. split; [now apply qualifies_executable|].
      now left.
  - intros Hhome Hbin. rewrite Hbin.
    destruct (home_dir w) as [h|] eqn:Hh; [|reflexivity].
    now rewrite (Hhome h eq_refl).
Qed.

Lemma find_executable_order_witness :
  let w := permissive_world (Some (lit "/home/u")) in
  qualifies w (lit "/home/u") (lit "ls") = true /\
  qualifies w (lit "/bin") (lit "ls") = true /\
  fst (find_executable (lit "ls") PATH_BUF w) = Some (lit "/home/u/ls").
Proof.
  cbv zeta. split; [reflexivity|]. split; [reflexivity|].
  exact (proj1 (proj2 (proj2 (find_executable_order
                                (permissive_world (Some (lit "/home/u")))
                                (lit "ls"))))
           (lit "/home/u") eq_refl eq_refl).
Defined.

(** C1, as it is written, fails when [HOME] is long: both files are
    executable and [HOME] is set and not empty, yet [/bin/ls] is chosen,
    because [${HOME}/ls] does not fit the path buffer. *)
Lemma find_executable_long_home :
  let w := permissive_world (Some long_home) in
  w_home w = Some long_home /\ long_home <> [] /\
  w_access w (w_cwd w) (candidate long_home (lit "ls")) = true /\
  w_access w (w_cwd w) (candidate (lit "/bin") (lit "ls")) = true /\
  fst (find_executable (lit "ls") PATH_BUF w) = Some (lit "/bin/ls") /\
  fst (find_executable (lit "ls") PATH_BUF w)
  <> Some (candidate long_home (lit "ls")).
Proof.
  cbv zeta.
  assert (H : fst (find_executable (lit "ls") PATH_BUF
                     (permissive_world (Some long_home)))
              = Some (lit "/bin/ls")) by (vm_compute; reflexivity).
  repeat split; try reflexivity; try exact H.
  - discriminate.
  - rewrite H. discriminate.
Qed.

(** ** The dispatcher *)

Lemma tokenize_blank line :
  forallb is_ws (cstr line) = true -> tokenize line = [].
Proof. intros H. now rewrite tokenize_words, words_ws. Qed.

(** What [run_line] does with a line that has tokens. *)
Lemma run_line_dispatch wm lb w cmd args :
  tokenize (lb_mem lb) = cmd :: args ->
  run_line wm lb w
  = if streq cmd (lit "exit") then ((Break, parsed_buf lb), w)
    else if streq cmd (lit "cd") then
      (builtin_cd (cmd :: args) (Z.of_nat (S (length args))) ;;;
       ret (Continue, parsed_buf lb)) w
    else
      (execute_external wm (cmd :: args) ;;; ret (Continue, parsed_buf lb)) w.
Proof.
  intros Htok. unfold run_line.
  destruct (starts_empty_or_ws (lb_mem lb)) eqn:Eblank.
  { rewrite starts_empty_or_ws_spec in Eblank.
    rewrite (tokenize_blank _ Eblank) in Htok. discriminate Htok. }
  unfold tokenize in Htok. cbv zeta. fold (parsed_buf lb).
  assert (Hargc : argc_of (parse_line (lb_mem lb) MAX_ARGS)
                  = Z.of_nat (S (length args))).
  { unfold argc_of. apply (f_equal (@length text)) in Htok.
    unfold args_of in Htok. rewrite length_map in Htok.
    now rewrite Htok. }
  rewrite Hargc, Htok.
  replace (Z.of_nat (S (length args)) =? 0)%Z with false
    by (symmetry; apply Z.eqb_neq; lia).
  change (argv0 (cmd :: args)) with cmd.
  destruct (streq cmd (lit "exit")); [reflexivity|].
  now destruct (streq cmd (lit "cd")).
Qed.

Lemma print_unknown_ok cmd w :
  w_wr_err w STDERR_FILENO = None ->
  print_unknown cmd w
  = (tt, emit STDERR_FILENO (unknown_command cmd ++ [LF]) w).
Proof.
  intros Herr. unfold print_unknown, bind.
  rewrite write_chr_ok by exact Herr.
  rewrite write_str_ok by now rewrite wr_err_emit.
  rewrite write_str_ok by now rewrite !wr_err_emit.
  rewrite !emit_emit. unfold unknown_command.
  now rewrite <- !app_assoc.
Qed.

Lemma execute_external_unknown wm argv w :
  fst (find_executable (argv0 argv) PATH_BUF w) = None ->
  w_wr_err w STDERR_FILENO = None ->
  execute_external wm argv w
  = (tt, emit STDERR_FILENO (unknown_command (argv0 argv) ++ [LF]) w).
Proof.
  intros Hnone Herr. unfold execute_external, bind at 1.
  rewrite find_executable_first_match in *. simpl in Hnone.
  rewrite Hnone. now apply print_unknown_ok.
Qed.

(** C4.  When resolution of the command name gives NotFound, the
    dispatcher writes "[name]: Unknown Command" and a newline to standard
    error and does nothing else: no [fork], no child, nothing on standard
    output, and the loop goes on. *)
Theorem unknown_command_reported
    (wm : wait_macros) (w : world) (cmd : text) (args : list text) :
  fst (find_executable cmd PATH_BUF w) = None ->
  w_wr_err w STDERR_FILENO = None ->
  let w' := snd (execute_external wm (cmd :: args) w) in
  w' = emit STDERR_FILENO (unknown_command cmd ++ [LF]) w /\
  w_stderr w' = w_stderr w ++ lit "[" ++ cmd ++ lit "]: Unknown Command" ++ [LF] /\
  w_stdout w' = w_stdout w /\
  w_trace w' = w_trace w /\
  w_children w' = w_children w /\
  (forall lb,
     tokenize (lb_mem lb) = cmd :: args ->
     streq cmd (lit "exit") = false -> streq cmd (lit "cd") = false ->
     run_line wm lb w = ((Continue, parsed_buf lb), w')).
Proof.
  intros Hnone Herr. cbv zeta.
  rewrite (execute_external_unknown wm (cmd :: args) w Hnone Herr).
  simpl snd. split; [reflexivity|].
  split.
  { unfold emit, unknown_command. simpl. now rewrite <- !app_assoc. }
  repeat split.
  intros lb Htok Hexit Hcd.
  rewrite (run_line_dispatch wm lb w cmd args Htok), Hexit, Hcd.
  unfold bind.
  now rewrite (execute_external_unknown wm (cmd :: args) w Hnone Herr).
Qed.

Lemma unknown_command_reported_witness :
  let w := sample_world [] None in
  let w' := snd (execute_external glibc_wait [lit "frobnicate"] w) in
  fst (find_executable (lit "frobnicate") PATH_BUF w) = None /\
  w_wr_err w STDERR_FILENO = None /\
  w_stderr w' = lit "[frobnicate]: Unknown Command" ++ [LF] /\
  w_trace w' = [].
Proof.
  cbv zeta. split; [reflexivity|]. split; [reflexivity|].
  pose proof (unknown_command_reported glibc_wait (sample_world [] None)
                (lit "frobnicate") [] eq_refl eq_refl) as H.
  cbv zeta in H. destruct H as (_ & Herr & _ & Htrace & _).
  split; [exact Herr | exact Htrace].
Defined.

(** ** Names too long for the path buffer *)

Lemma too_long prefix cmd :
  (str_len prefix + str_len cmd + 2 < 2 ^ 64)%Z ->
  (4094 < str_len prefix + str_len cmd)%Z ->
  fits prefix cmd = false.
Proof.
  intros Hmem Hlong. unfold fits, size_t, PATH_BUF.
  assert (0 <= str_len prefix)%Z by (unfold str_len; lia).
  assert (0 <= str_len cmd)%Z by (unfold str_len; lia).
  rewrite Z.mod_small by lia.
  apply negb_false_iff. apply Z.gtb_lt. lia.
Qed.

Lemma oversized_first_match w cmd : oversized w cmd -> first_match w cmd = None.
Proof.
  intros [Hbin Hhome]. unfold first_match, qualifies. rewrite Hbin. simpl.
  destruct (home_dir w) as [h|]; [|reflexivity].
  now rewrite (Hhome h eq_refl).
Qed.

(** C9 (as amended).  When both candidates of a command name exceed the
    4096-byte path buffer, resolution skips them without any error and
    gives NotFound whatever the file system holds, and the dispatcher
    reports "[name]: Unknown Command".  This is so for every name longer
    than 4093 bytes, and for every name longer than 4090 bytes when [HOME]
    is unset, empty or at least 4 bytes long (the name and [HOME] being
    strings in memory, whose lengths [size_t] can add up). *)
Theorem oversized_not_found
    (wm : wait_macros) (w : world) (cmd : text) (args : list text) :
  (oversized w cmd ->
   find_executable cmd PATH_BUF w = (None, w) /\
   (w_wr_err w STDERR_FILENO = None ->
    execute_external wm (cmd :: args) w
    = (tt, emit STDERR_FILENO (unknown_command cmd ++ [LF]) w) /\
    forall lb,
      tokenize (lb_mem lb) = cmd :: args ->
      run_line wm lb w
      = ((Continue, parsed_buf lb),
         emit STDERR_FILENO (unknown_command cmd ++ [LF]) w))) /\
  (in_memory w cmd ->
   (4093 < str_len cmd)%Z \/
   ((4090 < str_len cmd)%Z /\
    forall h, home_dir w = Some h -> (4 <= str_len h)%Z) ->
   oversized w cmd).
Proof.
  split.
  - intros Hover.
    assert (Hnone : find_executable cmd PATH_BUF w = (None, w))
      by (rewrite find_executable_first_match;
          now rewrite oversized_first_match).
    split; [exact Hnone|]. intros Herr.
    assert (Hrun : execute_external wm (cmd :: args) w
                   = (tt, emit STDERR_FILENO (unknown_command cmd ++ [LF]) w)).
    { apply (execute_external_unknown wm (cmd :: args) w); [|exact Herr].
      simpl argv0. now rewrite Hnone. }
    split; [exact Hrun|]. intros lb Htok.
    rewrite (run_line_dispatch wm lb w cmd args Htok).
    destruct Hover as [Hbin _].
    destruct (streq cmd (lit "exit")) eqn:Eexit.
    { apply streq_eq in Eexit. subst cmd. discriminate Hbin. }
    destruct (streq cmd (lit "cd")) eqn:Ecd.
    { apply streq_eq in Ecd. subst cmd. discriminate Hbin. }
    unfold bind. now rewrite Hrun.
  - intros [Hbin Hhome] Hlen. split.
    + apply too_long; change (str_len (lit "/bin")) with 4%Z; lia.
    + intros h Hh. specialize (Hhome h Hh).
      assert (1 <= str_len h)%Z.
      { unfold home_dir in Hh. destruct (w_home w) as [[|c t]|];
          try discriminate. injection Hh as <-. unfold str_len. simpl. lia. }
      apply too_long; [exact Hhome|].
      destruct Hlen as [Hlen | [Hlen Hfour]]; [lia|].
      specialize (Hfour h Hh). lia.
Qed.

Lemma oversized_not_found_witness :
  let w := permissive_world (Some (lit "/home/u")) in
  let cmd := repeat "a"%char 4091 in
  in_memory w cmd /\
  ((4090 < str_len cmd)%Z /\
   forall h, home_dir w = Some h -> (4 <= str_len h)%Z) /\
  find_executable cmd PATH_BUF w = (None, w).
Proof.
  cbv zeta.
  set (w := permissive_world (Some (lit "/home/u"))).
  set (cmd := repeat "a"%char 4091).
  assert (Hmem : in_memory w cmd).
  { split; [vm_compute; reflexivity|].
    intros h Hh. injection Hh as <-. vm_compute. reflexivity. }
  assert (Hlen : (4090 < str_len cmd)%Z /\
                 forall h, home_dir w = Some h -> (4 <= str_len h)%Z).
  { split; [vm_compute; reflexivity|].
    intros h Hh. injection Hh as <-. vm_compute. discriminate. }
  split; [exact Hmem|]. split; [exact Hlen|].
  destruct (oversized_not_found glibc_wait w cmd []) as [Hfound Hover].
  exact (proj1 (Hfound (Hover Hmem (or_intror Hlen)))).
Defined.

(** C9, as it is written, fails for a short [HOME]: with [HOME=/] a name
    of 4092 bytes still fits the buffer behind it, and is found. *)
Lemma long_name_found :
  let w := permissive_world (Some (lit "/")) in
  (4090 < str_len long_name)%Z /\
  fits (lit "/bin") long_name = false /\
  fits (lit "/") long_name = true /\
  fst (find_executable long_name PATH_BUF w)
  = Some (lit "/" ++ lit "/" ++ long_name) /\
  fst (find_executable long_name PATH_BUF w) <> None.
Proof.
  cbv zeta.
  assert (H : fst (find_executable long_name PATH_BUF
                     (permissive_world (Some (lit "/"))))
              = Some (lit "/" ++ lit "/" ++ long_name))
    by (vm_compute; reflexivity).
  split; [vm_compute; reflexivity|].
  split; [vm_compute; reflexivity|].
  split; [vm_compute; reflexivity|].
  split; [exact H|]. rewrite H. discriminate.
Qed.

(** ** [write_int] *)

Lemma firstn_snoc_nth (l : text) : forall i,
  i < length l -> firstn (S i) l = firstn i l ++ [nth i l NUL].
Proof.
  induction l as [|c l IH]; intros [|i] H; simpl in *; try lia.
  - reflexivity.
  - f_equal. apply IH. lia.
Qed.

Lemma write_back_ok fd buf : forall i w,
  w_wr_err w fd = None -> i <= length buf ->
  write_back fd i buf w = (tt, emit fd (rev (firstn i buf)) w).
Proof.
  induction i as [|i IH]; intros w Hfd Hi.
  - simpl. now rewrite emit_nil.
  - simpl write_back. unfold bind.
    rewrite write_chr_ok by exact Hfd.
    rewrite IH by (rewrite ?wr_err_emit; auto; lia).
    rewrite emit_emit, firstn_snoc_nth by lia.
    now rewrite rev_app_distr.
Qed.

Lemma write_int_ok fd x w :
  w_wr_err w fd = None -> write_int fd x w = (tt, emit fd (int_text x) w).
Proof.
  intros Hfd. unfold write_int, int_text.
  destruct (x =? 0)%Z; [now apply write_chr_ok|].
  unfold bind at 1.
  destruct (x <? 0)%Z.
  - unfold bind at 1. rewrite write_chr_ok by exact Hfd.
    destruct (x =? INT_MIN)%Z.
    + unfold bind, ret. rewrite write_str_ok by now rewrite wr_err_emit.
      now rewrite emit_emit.
    + unfold ret at 1. rewrite write_back_ok by (rewrite ?wr_err_emit; auto).
      now rewrite firstn_all, emit_emit.
  - unfold ret at 1. rewrite write_back_ok by auto.
    now rewrite firstn_all.
Qed.

(** The digits read back as the number. *)
Lemma digit_value_char d :
  (0 <= d <= 9)%Z -> digit_value (digit_char d) = Some d.
Proof.
  intros H.
  assert (Hd : (d = 0 \/ d = 1 \/ d = 2 \/ d = 3 \/ d = 4 \/ d = 5 \/ d = 6
                \/ d = 7 \/ d = 8 \/ d = 9)%Z) by lia.
  repeat (destruct Hd as [-> | Hd]; [reflexivity|]). now subst d.
Qed.

Lemma digits_loop_acc : forall room x buf,
  digits_loop room x buf = buf ++ digits_loop room x [].
Proof.
  induction room as [|r IH]; intros x buf; simpl.
  - now rewrite app_nil_r.
  - destruct (x >? 0)%Z; [|now rewrite app_nil_r].
    rewrite IH. rewrite (IH _ [_]). now rewrite <- app_assoc.
Qed.

Lemma digits_value_app a : forall acc b,
  digits_value acc (a ++ b)
  = match digits_value acc a with
    | Some v => digits_value v b
    | None => None
    end.
Proof.
  induction a as [|c a IH]; intros acc b; simpl; [reflexivity|].
  destruct (digit_value c); [apply IH | reflexivity].
Qed.

Lemma digits_roundtrip : forall room x,
  (0 <= x < 10 ^ Z.of_nat room)%Z ->
  digits_value 0 (rev (digits_loop room x [])) = Some x.
Proof.
  induction room as [|r IH]; intros x Hx.
  - simpl in *. f_equal. lia.
  - simpl digits_loop. destruct (x >? 0)%Z eqn:Epos.
    2:{ rewrite Z.gtb_ltb in Epos. apply Z.ltb_ge in Epos.
        simpl. f_equal. lia. }
    apply Z.gtb_lt in Epos.
    rewrite Nat2Z.inj_succ, Z.pow_succ_r in Hx by lia.
    pose proof (Z.quot_rem' x 10) as Hqr.
    pose proof (Z.rem_bound_pos x 10 ltac:(lia) ltac:(lia)) as Hrem.
    assert (Hq : (0 <= Z.quot x 10 < 10 ^ Z.of_nat r)%Z).
    { rewrite Z.quot_div_nonneg by lia. split.
      - apply Z.div_pos; lia.
      - apply Z.div_lt_upper_bound; lia. }
    rewrite digits_loop_acc. simpl app. simpl rev.
    rewrite digits_value_app, (IH _ Hq). cbn [digits_value].
    rewrite digit_value_char by lia. f_equal. lia.
Qed.

Lemma digits_loop_nonempty r x :
  (0 < x)%Z -> digits_loop (S r) x [] <> [].
Proof.
  intros Hx. simpl. apply Z.gtb_lt in Hx. rewrite Hx.
  rewrite digits_loop_acc. discriminate.
Qed.

Lemma int_text_decimal x :
  (INT_MIN <= x <= INT_MAX)%Z -> decimal_value (int_text x) = Some x.
Proof.
  unfold INT_MIN, INT_MAX, int_text. intros Hx.
  destruct (x =? 0)%Z eqn:E0; [apply Z.eqb_eq in E0; now subst|].
  apply Z.eqb_neq in E0.
  destruct (x <? 0)%Z eqn:Eneg.
  - apply Z.ltb_lt in Eneg.
    destruct (x =? INT_MIN)%Z eqn:Emin;
      [apply Z.eqb_eq in Emin; now subst|].
    apply Z.eqb_neq in Emin. unfold INT_MIN in Emin.
    assert (Hr : digits_value 0 (rev (digits_loop 32 (- x) [])) = Some (- x)%Z)
      by (apply digits_roundtrip; simpl; lia).
    unfold decimal_value. rewrite Ascii.eqb_refl.
    destruct (rev (digits_loop 32 (- x) [])) as [|c s] eqn:Erev.
    + apply (f_equal (@rev ascii)) in Erev. rewrite rev_involutive in Erev.
      exfalso. apply (digits_loop_nonempty 31 (- x)); [lia | exact Erev].
    + rewrite Hr. simpl. f_equal. lia.
  - apply Z.ltb_ge in Eneg.
    assert (Hr : digits_value 0 (rev (digits_loop 32 x [])) = Some x)
      by (apply digits_roundtrip; simpl; lia).
    unfold decimal_value.
    destruct (rev (digits_loop 32 x [])) as [|c s] eqn:Erev.
    + apply (f_equal (@rev ascii)) in Erev. rewrite rev_involutive in Erev.
      exfalso. apply (digits_loop_nonempty 31 x); [lia | exact Erev].
    + destruct (Ascii.eqb c "-"%char) eqn:Ec; [|exact Hr].
      apply Ascii.eqb_eq in Ec. subst c. discriminate Hr.
Qed.

(** The text has no leading zero. *)
Lemma digits_loop_zero room buf : digits_loop room 0 buf = buf.
Proof. now destruct room. Qed.

Lemma digit_char_leading d :
  (1 <= d <= 9)%Z ->
  digit_char d <> "0"%char /\ digit_char d <> "-"%char.
Proof.
  intros H.
  assert (Hd : (d = 1 \/ d = 2 \/ d = 3 \/ d = 4 \/ d = 5 \/ d = 6
                \/ d = 7 \/ d = 8 \/ d = 9)%Z) by lia.
  repeat (destruct Hd as [-> | Hd]; [split; discriminate|]).
  subst d. split; discriminate.
Qed.

Lemma digits_loop_leading : forall room x,
  (0 < x < 10 ^ Z.of_nat room)%Z ->
  exists d, (1 <= d <= 9)%Z /\
            hd "0"%char (rev (digits_loop room x [])) = digit_char d.
Proof.
  induction room as [|r IH]; intros x Hx; [simpl in Hx; lia|].
  simpl digits_loop.
  replace (x >? 0)%Z with true by (symmetry; apply Z.gtb_lt; lia).
  rewrite Nat2Z.inj_succ, Z.pow_succ_r in Hx by lia.
  pose proof (Z.quot_rem' x 10) as Hqr.
  pose proof (Z.rem_bound_pos x 10 ltac:(lia) ltac:(lia)) as Hrem.
  rewrite digits_loop_acc. simpl app. simpl rev.
  destruct (Z.eq_dec (Z.quot x 10) 0) as [Hq | Hq].
  - rewrite Hq, digits_loop_zero. simpl.
    exists (Z.rem x 10). split; [lia | reflexivity].
  - assert (Hq' : (0 < Z.quot x 10 < 10 ^ Z.of_nat r)%Z).
    { rewrite Z.quot_div_nonneg in * by lia. split.
      - pose proof (Z.div_pos x 10 ltac:(lia) ltac:(lia)). lia.
      - apply Z.div_lt_upper_bound; lia. }
    destruct (IH _ Hq') as (d & Hd & Hhead). exists d. split; [exact Hd|].
    destruct (rev (digits_loop r (Z.quot x 10) [])) as [|c s] eqn:E.
    + apply (f_equal (@rev ascii)) in E. rewrite rev_involutive in E.
      destruct r as [|r']; [simpl in Hq'; lia|].
      exfalso. apply (digits_loop_nonempty r' (Z.quot x 10)); [lia|exact E].
    + exact Hhead.
Qed.

Lemma int_text_canonical x :
  (INT_MIN <= x <= INT_MAX)%Z ->
  (x = 0%Z /\ int_text x = ["0"%char]) \/
  ((0 < x)%Z /\ hd "0"%char (int_text x) <> "0"%char /\
   hd "0"%char (int_text x) <> "-"%char) \/
  ((x < 0)%Z /\ exists s, int_text x = "-"%char :: s /\
                           hd "0"%char s <> "0"%char).
Proof.
  unfold INT_MIN, INT_MAX. intros Hx.
  destruct (Z.lt_trichotomy x 0) as [Hneg | [-> | Hpos]].
  - right. right. split; [exact Hneg|]. unfold int_text.
    replace (x =? 0)%Z with false by (symmetry; apply Z.eqb_neq; lia).
    replace (x <? 0)%Z with true by (symmetry; apply Z.ltb_lt; lia).
    eexists. split; [reflexivity|].
    destruct (x =? INT_MIN)%Z; [discriminate|].
    destruct (digits_loop_leading 32 (- x)) as (d & Hd & ->); [simpl; lia|].
    now apply digit_char_leading.
  - left. now split.
  - right. left. split; [exact Hpos|]. unfold int_text.
    replace (x =? 0)%Z with false by (symmetry; apply Z.eqb_neq; lia).
    replace (x <? 0)%Z with false by (symmetry; apply Z.ltb_ge; lia).
    destruct (digits_loop_leading 32 x) as (d & Hd & ->); [simpl; lia|].
    now apply digit_char_leading.
Qed.

(** ** The status reporter *)

Lemma report_status_ok wm status w :
  w_wr_err w STDOUT_FILENO = None ->
  report_status wm status w
  = (tt, emit STDOUT_FILENO (message (classify wm status) ++ [LF]) w).
Proof.
  intros Hout. unfold report_status, classify.
  destruct (WIFEXITED wm status); [|destruct (WIFSIGNALED wm status)].
  - unfold bind. rewrite write_str_ok by exact Hout.
    rewrite write_int_ok by now rewrite wr_err_emit.
    rewrite write_chr_ok by now rewrite !wr_err_emit.
    rewrite !emit_emit. unfold message. now rewrite <- !app_assoc.
  - unfold bind. rewrite write_str_ok by exact Hout.
    rewrite write_int_ok by now rewrite wr_err_emit.
    rewrite write_chr_ok by now rewrite !wr_err_emit.
    rewrite !emit_emit. unfold message. now rewrite <- !app_assoc.
  - now apply write_str_ok.
Qed.

(** The status words of the GNU C library: exit codes are 0 to 255 and
    signal numbers are positive. *)
Lemma glibc_classify_ranges status :
  match classify glibc_wait status with
  | ExitedNormally code => (0 <= code <= 255)%Z
  | KilledBySignal n => (1 <= n <= 126)%Z
  | Unknown => True
  end.
Proof.
  unfold classify, glibc_wait. cbn [WIFEXITED WEXITSTATUS WIFSIGNALED WTERMSIG].
  change 127%Z with (Z.ones 7). rewrite Z.land_ones by lia.
  pose proof (Z.mod_pos_bound status (2 ^ 7) ltac:(lia)) as Hsig.
  change (2 ^ 7)%Z with 128%Z in *.
  destruct (status mod 128 =? 0)%Z eqn:Eexit.
  - rewrite Z.shiftr_land. change (Z.shiftr 65280 8) with (Z.ones 8).
    rewrite Z.land_ones by lia.
    pose proof (Z.mod_pos_bound (Z.shiftr status 8) (2 ^ 8) ltac:(lia)).
    lia.
  - apply Z.eqb_neq in Eexit.
    destruct (status mod 128 + 1 >=? 128)%Z eqn:Estop;
      rewrite Z.geb_leb in Estop.
    + (* the stopped pattern: the signed char is negative *)
      apply Z.leb_le in Estop.
      assert (Hstop : (status mod 128 = 127)%Z) by lia.
      rewrite Hstop. exact I.
    + apply Z.leb_gt in Estop.
      destruct (Z.shiftr (status mod 128 + 1) 1 >? 0)%Z; [lia | exact I].
Qed.

(** C2.  The reporter writes one line to standard output for every status
    word: the message of the outcome the word is classified as, followed
    by a newline.  An exit gives "Command executed successfully. Return
    code: " and the code in decimal, a signal gives "Command terminated by
    signal: " and its number in decimal, and every other word gives
    "Command finished. (unknown status)"; there is no fourth case. *)
Theorem report_status_message (wm : wait_macros) (status : Z) (w : world) :
  w_wr_err w STDOUT_FILENO = None ->
  let w' := snd (report_status wm status w) in
  w' = emit STDOUT_FILENO (message (classify wm status) ++ [LF]) w /\
  w_stdout w' = w_stdout w ++ message (classify wm status) ++ [LF] /\
  w_stderr w' = w_stderr w /\
  (forall code,
     classify wm status = ExitedNormally code ->
     message (classify wm status)
     = lit "Command executed successfully. Return code: " ++ int_text code) /\
  (forall n,
     classify wm status = KilledBySignal n ->
     message (classify wm status)
     = lit "Command terminated by signal: " ++ int_text n) /\
  (classify wm status = Unknown ->
     message (classify wm status) = lit "Command finished. (unknown status)") /\
  (forall x, (INT_MIN <= x <= INT_MAX)%Z -> decimal_value (int_text x) = Some x) /\
  (forall x, (0 < x <= INT_MAX)%Z -> hd "0"%char (int_text x) <> "0"%char) /\
  message (ExitedNormally 3)
  = lit "Command executed successfully. Return code: 3" /\
  message (KilledBySignal 9) = lit "Command terminated by signal: 9" /\
  match classify glibc_wait status with
  | ExitedNormally code => (0 <= code <= 255)%Z
  | KilledBySignal n => (1 <= n <= 126)%Z
  | Unknown => True
  end.
Proof.
  intros Hout. cbv zeta. rewrite report_status_ok by exact Hout. simpl snd.
  split; [reflexivity|].
  split; [reflexivity|].
  split; [reflexivity|].
  split; [now intros code ->|].
  split; [now intros n ->|].
  split; [now intros ->|].
  split; [exact int_text_decimal|].
  split.
  { intros x Hx.
    destruct (int_text_canonical x) as [[H0 _] | [[_ [H _]] | [Hneg _]]];
      unfold INT_MIN, INT_MAX in *; try lia. exact H. }
  split; [reflexivity|]. split; [reflexivity|].
  apply glibc_classify_ranges.
Qed.

Lemma report_status_message_witness :
  let w := sample_world [] None in
  w_wr_err w STDOUT_FILENO = None /\
  classify glibc_wait 768 = ExitedNormally 3 /\
  classify glibc_wait 9 = KilledBySignal 9 /\
  w_stdout (snd (report_status glibc_wait 768 w))
  = lit "Command executed successfully. Return code: 3" ++ [LF] /\
  w_stdout (snd (report_status glibc_wait 9 w))
  = lit "Command terminated by signal: 9" ++ [LF].
Proof.
  cbv zeta. split; [reflexivity|]. split; [reflexivity|].
  split; [reflexivity|].
  split.
  - exact (proj1 (proj2 (report_status_message glibc_wait 768
                           (sample_world [] None) eq_refl))).
  - exact (proj1 (proj2 (report_status_message glibc_wait 9
                           (sample_world [] None) eq_refl))).
Defined.

(** ** The line reader *)

Lemma set_stdin_same w : set_stdin (w_stdin w) w = w.
Proof. now destruct w. Qed.

(** A line that is returned has used up at least one pending read. *)
Lemma read_loop_consumes heap : forall input cap got n cap' mem rest,
  read_loop heap input cap got = (n, cap', mem, rest) ->
  (0 <= n)%Z ->
  length rest <= length input /\ (got = [] -> length rest < length input).
Proof.
  induction input as [|ev input IH]; intros cap got n cap' mem rest Hrun Hn.
  - simpl in Hrun. destruct (str_len got =? 0)%Z eqn:E.
    + injection Hrun as <- _ _ _. lia.
    + injection Hrun as _ _ _ <-. split; [simpl; lia|].
      intros ->. discriminate E.
  - destruct ev as [c | | e]; simpl in Hrun.
    + destruct (grow heap cap (str_len got)) as [cap1|].
      2:{ injection Hrun as <- _ _ _. lia. }
      destruct (Ascii.eqb c LF).
      * injection Hrun as _ _ _ <-. simpl. lia.
      * destruct (IH _ _ _ _ _ _ Hrun Hn) as [Hle _]. simpl. lia.
    + destruct (str_len got =? 0)%Z eqn:E.
      * injection Hrun as <- _ _ _. lia.
      * injection Hrun as _ _ _ <-. simpl. lia.
    + injection Hrun as <- _ _ _. lia.
Qed.

Lemma read_loop_fails heap : forall input cap got,
  line_fails heap input cap got ->
  fst (fst (fst (read_loop heap input cap got))) = (-1)%Z.
Proof.
  intros input cap got H.
  induction H as [e rest cap got | c rest cap got Hfull Hheap
                  | c rest cap cap' got Hc Hgrow _ IH].
  - reflexivity.
  - simpl. unfold grow. now rewrite Hfull, Hheap.
  - simpl. rewrite Hgrow.
    destruct (Ascii.eqb c LF) eqn:E; [|exact IH].
    apply Ascii.eqb_eq in E. contradiction.
Qed.

Lemma read_loop_ended heap input cap :
  input = [] \/ (exists rest, input = RdEof :: rest) ->
  fst (fst (fst (read_loop heap input cap []))) = (-1)%Z.
Proof. intros [-> | [rest ->]]; reflexivity. Qed.

(** [read_line] changes nothing in the world but the pending reads. *)
Lemma read_line_frame lb w :
  exists rest,
    snd (read_line lb w) = set_stdin rest w /\
    length rest <= length (w_stdin w) /\
    ((0 <= fst (fst (read_line lb w)))%Z -> length rest < length (w_stdin w)).
Proof.
  unfold read_line.
  destruct ((negb (lb_alloc lb) || (lb_cap lb =? 0)%Z)
            && negb (w_heap w INITIAL_BUF)).
  - exists (w_stdin w). simpl. rewrite set_stdin_same.
    split; [reflexivity|]. split; lia.
  - destruct (read_loop (w_heap w) (w_stdin w) (start_cap lb) [])
      as [[[n cap'] mem] rest] eqn:Hrun.
    exists rest. simpl. split; [reflexivity|].
    destruct (Z_le_gt_dec 0 n) as [Hn | Hn].
    + destruct (read_loop_consumes _ _ _ _ _ _ _ _ Hrun Hn) as [Hle Hlt].
      split; [exact Hle|]. intros _. now apply Hlt.
    + split; [|lia].
      clear Hn. revert Hrun. generalize (start_cap lb), (@nil ascii).
      generalize (w_stdin w) as input.
      induction input as [|ev input IH]; intros cap got Hrun.
      * simpl in Hrun. destruct (str_len got =? 0)%Z;
          injection Hrun as _ _ _ <-; simpl; lia.
      * destruct ev as [c | | e]; simpl in Hrun.
        -- destruct (grow (w_heap w) cap (str_len got)) as [cap1|];
             [|injection Hrun as _ _ _ <-; simpl; lia].
           destruct (Ascii.eqb c LF);
             [injection Hrun as _ _ _ <-; simpl; lia|].
           specialize (IH _ _ Hrun). simpl. lia.
        -- destruct (str_len got =? 0)%Z;
             injection Hrun as _ _ _ <-; simpl; lia.
        -- injection Hrun as _ _ _ <-. simpl. lia.
Qed.

Lemma read_line_no_line lb w :
  no_line_read lb w -> fst (fst (read_line lb w)) = (-1)%Z.
Proof.
  unfold read_line, no_line_read, alloc_fails, input_ended.
  intros Hcause.
  destruct ((negb (lb_alloc lb) || (lb_cap lb =? 0)%Z)
            && negb (w_heap w INITIAL_BUF)) eqn:Ealloc; [reflexivity|].
  destruct Hcause as [[Hfresh Hheap] | [Hfail | Hend]].
  - exfalso. rewrite Hheap in Ealloc. simpl in Ealloc.
    rewrite andb_true_r in Ealloc. apply orb_false_iff in Ealloc.
    destruct Ealloc as [Ea Ec]. apply negb_false_iff in Ea.
    apply Z.eqb_neq in Ec. destruct Hfresh; congruence.
  - pose proof (read_loop_fails _ _ _ _ Hfail) as H.
    destruct (read_loop (w_heap w) (w_stdin w) (start_cap lb) [])
      as [[[n cap'] mem] rest]. exact H.
  - pose proof (read_loop_ended (w_heap w) (w_stdin w) (start_cap lb) Hend)
      as H.
    destruct (read_loop (w_heap w) (w_stdin w) (start_cap lb) [])
      as [[[n cap'] mem] rest]. exact H.
Qed.

(** ** Code that leaves standard input alone *)

Create HintDb shell.

Lemma keeps_ret {A} (a : A) : keeps_stdin (ret a).
Proof. intros w. reflexivity. Qed.

Lemma keeps_bind {A B} (c : M A) (k : A -> M B) :
  keeps_stdin c -> (forall a, keeps_stdin (k a)) -> keeps_stdin (bind c k).
Proof.
  intros Hc Hk w. unfold bind. specialize (Hc w).
  destruct (c w) as [a w1]. simpl in Hc. now rewrite Hk.
Qed.

Lemma stdin_emit fd data w : w_stdin (emit fd data w) = w_stdin w.
Proof.
  unfold emit. destruct (fd =? STDOUT_FILENO)%Z; [reflexivity|].
  now destruct (fd =? STDERR_FILENO)%Z.
Qed.

Lemma keeps_sys_write fd data : keeps_stdin (sys_write fd data).
Proof.
  intros w. unfold sys_write. destruct (w_wr_err w fd); cbn [snd];
    [reflexivity | apply stdin_emit].
Qed.

Lemma keeps_perror tag : keeps_stdin (perror tag).
Proof.
  intros w. unfold perror. apply (keeps_bind _ _ (keeps_sys_write _ _)).
  intros _. apply keeps_ret.
Qed.

Lemma keeps_getenv : keeps_stdin sys_getenv_HOME.
Proof. intros w. reflexivity. Qed.

Lemma keeps_access path : keeps_stdin (sys_access_x path).
Proof. intros w. reflexivity. Qed.

Lemma keeps_chdir target : keeps_stdin (sys_chdir target).
Proof.
  intros w. unfold sys_chdir. destruct target; [reflexivity|].
  cbv zeta. now destruct (w_chdir _ _ _).
Qed.

Lemma keeps_fork : keeps_stdin sys_fork.
Proof.
  intros w. unfold sys_fork. cbv zeta. simpl w_children.
  destruct (w_children w) as [|[e | pid x wt] rest]; reflexivity.
Qed.

Lemma keeps_child path argv x : keeps_stdin (child_branch path argv x).
Proof.
  intros w. unfold child_branch. destruct x; [|reflexivity].
  cbv zeta. cbn [snd]. unfold log at 1. cbn [w_stdin].
  destruct (w_wr_err _ _); [reflexivity|]. now rewrite stdin_emit.
Qed.

Lemma keeps_waitpid pid wt : keeps_stdin (sys_waitpid pid wt).
Proof. intros w. unfold sys_waitpid. now destruct wt. Qed.

#[local] Hint Resolve keeps_ret keeps_bind keeps_sys_write keeps_perror
  keeps_getenv keeps_access keeps_chdir keeps_fork keeps_child
  keeps_waitpid : shell.

Lemma keeps_write_str fd s : keeps_stdin (write_str fd s).
Proof. unfold write_str. auto with shell. Qed.

Lemma keeps_write_chr fd c : keeps_stdin (write_chr fd c).
Proof. unfold write_chr. auto with shell. Qed.

#[local] Hint Resolve keeps_write_str keeps_write_chr : shell.

Lemma keeps_write_back fd buf i : keeps_stdin (write_back fd i buf).
Proof. induction i; simpl; auto with shell. Qed.

#[local] Hint Resolve keeps_write_back : shell.

Lemma keeps_write_int fd x : keeps_stdin (write_int fd x).
Proof.
  unfold write_int. destruct (x =? 0)%Z; [auto with shell|].
  apply keeps_bind.
  - destruct (x <? 0)%Z; [|auto with shell].
    apply keeps_bind; [auto with shell|]. intros _.
    destruct (x =? INT_MIN)%Z; auto with shell.
  - intros [x'|]; auto with shell.
Qed.

#[local] Hint Resolve keeps_write_int : shell.

Lemma keeps_report_status wm status : keeps_stdin (report_status wm status).
Proof.
  unfold report_status.
  destruct (WIFEXITED wm status); [auto 6 with shell|].
  destruct (WIFSIGNALED wm status); auto 6 with shell.
Qed.

Lemma keeps_find_executable cmd sz : keeps_stdin (find_executable cmd sz).
Proof.
  unfold find_executable. apply keeps_bind; [auto with shell|].
  intros home. apply keeps_bind.
  - destruct home as [[|h0 h']|]; auto with shell.
    destruct (build_path sz (h0 :: h') cmd); auto with shell.
  - intros [out|]; auto with shell.
    destruct (build_path sz (lit "/bin") cmd); auto with shell.
Qed.

Lemma keeps_print_unknown cmd : keeps_stdin (print_unknown cmd).
Proof. unfold print_unknown. auto 6 with shell. Qed.

#[local] Hint Resolve keeps_report_status keeps_find_executable
  keeps_print_unknown : shell.

Lemma keeps_execute_external wm argv : keeps_stdin (execute_external wm argv).
Proof.
  unfold execute_external. apply keeps_bind; [auto with shell|].
  intros [path|]; [|auto with shell].
  apply keeps_bind; [auto with shell|].
  intros [pid [[x wt]|]]; [|auto with shell].
  apply keeps_bind; [auto with shell|]. intros _.
  apply keeps_bind; [auto with shell|]. intros r.
  destruct (fst r <? 0)%Z; auto with shell.
Qed.

Lemma keeps_builtin_cd argv argc : keeps_stdin (builtin_cd argv argc).
Proof.
  unfold builtin_cd. apply keeps_bind.
  - destruct (argc >=? 2)%Z; auto with shell.
  - intros [t|]; [|auto with shell].
    apply keeps_bind; [auto with shell|]. intros r.
    destruct (negb (r =? 0)%Z); auto with shell.
Qed.

#[local] Hint Resolve keeps_execute_external keeps_builtin_cd : shell.

Lemma keeps_run_line wm lb : keeps_stdin (run_line wm lb).
Proof.
  unfold run_line. destruct (starts_empty_or_ws (lb_mem lb));
    [auto with shell|].
  cbv zeta. destruct (argc_of _ =? 0)%Z; [auto with shell|].
  destruct (streq _ (lit "exit")); [auto with shell|].
  destruct (streq _ (lit "cd")); auto with shell.
Qed.

(** ** The loop of [main] ends *)

(** A turn that does not leave the loop has used up pending input. *)
Lemma cycle_progress wm lb w lb' w' :
  cycle wm lb w = ((Continue, lb'), w') ->
  length (w_stdin w') < length (w_stdin w).
Proof.
  unfold cycle, bind at 1. unfold sys_write.
  destruct (w_wr_err w STDOUT_FILENO).
  { cbn [Z.ltb Z.compare]. unfold bind at 1.
    destruct (perror (lit "write") _). intros H. discriminate H. }
  change (Z.of_nat (length (firstn PROMPT_LEN PROMPT)) <? 0)%Z with false.
  cbv iota. fold (prompted w). unfold bind at 1.
  destruct (read_line_frame lb (prompted w)) as (rest & Hframe & _ & Hlt).
  assert (Hp : w_stdin (prompted w) = w_stdin w) by apply stdin_emit.
  rewrite Hp in Hlt.
  destruct (read_line lb (prompted w)) as [[n lb1] w2].
  cbn [fst snd] in Hframe, Hlt |- *.
  destruct (n <? 0)%Z eqn:En.
  { unfold bind, write_chr, bind, sys_write, ret.
    destruct (w_wr_err w2 STDOUT_FILENO); intros H; discriminate H. }
  apply Z.ltb_ge in En. intros Hrun.
  pose proof (keeps_run_line wm lb1 w2) as Hkeep.
  rewrite Hrun in Hkeep. cbn [snd] in Hkeep. rewrite Hkeep, Hframe.
  exact (Hlt En).
Qed.

Lemma main_loop_ends wm : forall fuel lb w,
  length (w_stdin w) < fuel ->
  exists lb' w', main_loop wm fuel lb w = (Some lb', w').
Proof.
  induction fuel as [|fuel IH]; intros lb w Hfuel; [lia|].
  simpl. unfold bind at 1.
  destruct (cycle wm lb w) as [[[|] lb1] w1] eqn:Hcycle.
  - apply IH. apply cycle_progress in Hcycle. lia.
  - now exists lb1, w1.
Qed.

Lemma main_loop_break wm fuel lb w lb' w' :
  cycle wm lb w = ((Break, lb'), w') ->
  main_loop wm (S fuel) lb w = (Some lb', w').
Proof. intros H. simpl. unfold bind. now rewrite H. Qed.

Lemma main_exit_code wm fuel w code :
  fst (main wm fuel w) = Some code -> code = 0%Z.
Proof.
  unfold main, bind.
  destruct (main_loop wm fuel no_line w) as [[lb|] w']; simpl; congruence.
Qed.

Lemma main_ends wm w :
  exists w', main wm (S (length (w_stdin w))) w = (Some 0%Z, w').
Proof.
  destruct (main_loop_ends wm (S (length (w_stdin w))) no_line w)
    as (lb' & w' & H); [lia|].
  exists w'. unfold main, bind. now rewrite H.
Qed.

(** ** Leaving the loop: [exit], end of input, and failures to read *)

Lemma no_line_read_prompted lb w :
  no_line_read lb w -> no_line_read lb (prompted w).
Proof.
  unfold no_line_read, alloc_fails, input_ended, prompted, emit. simpl.
  tauto.
Qed.

(** With no line to give, the turn writes a newline and leaves the loop. *)
Lemma cycle_no_line wm lb w :
  w_wr_err w STDOUT_FILENO = None ->
  no_line_read lb w ->
  exists lb' rest,
    cycle wm lb w
    = ((Break, lb'), emit STDOUT_FILENO [LF] (set_stdin rest (prompted w))).
Proof.
  intros Hout Hcause.
  pose proof (read_line_no_line lb (prompted w)
                (no_line_read_prompted lb w Hcause)) as Hn.
  destruct (read_line_frame lb (prompted w)) as (rest & Hframe & _).
  destruct (read_line lb (prompted w)) as [[n lb'] w2] eqn:Hread.
  simpl in Hn, Hframe. subst n w2. exists lb', rest.
  rewrite (cycle_read wm lb w (-1) lb' _ Hout Hread).
  change (-1 <? 0)%Z with true. cbv iota. unfold bind.
  now rewrite write_chr_ok.
Qed.

(** C5.  A line whose first token is "exit" ends the loop at once,
    whatever follows the token: nothing else is done with the line, and
    the world stays as the reading of the line left it.  The loop always
    ends, and whenever [main] returns, by "exit" or at the end of the
    input, it returns 0. *)
Theorem exit_stops_shell (wm : wait_macros) :
  (forall lb w rest,
     tokenize (lb_mem lb) = lit "exit" :: rest ->
     run_line wm lb w = ((Break, parsed_buf lb), w)) /\
  (forall lb w n lb' w2 rest fuel,
     w_wr_err w STDOUT_FILENO = None ->
     read_line lb (prompted w) = ((n, lb'), w2) -> (0 <= n)%Z ->
     tokenize (lb_mem lb') = lit "exit" :: rest ->
     cycle wm lb w = ((Break, parsed_buf lb'), w2) /\
     main_loop wm (S fuel) lb w = (Some (parsed_buf lb'), w2) /\
     (lb = no_line -> main wm (S fuel) w = (Some 0%Z, w2))) /\
  (forall w fuel,
     w_wr_err w STDOUT_FILENO = None -> input_ended w ->
     exists w', main wm (S fuel) w = (Some 0%Z, w') /\
       w_stdout w' = w_stdout w ++ firstn PROMPT_LEN PROMPT ++ [LF]) /\
  (forall w, exists w', main wm (S (length (w_stdin w))) w = (Some 0%Z, w')) /\
  (forall fuel w code, fst (main wm fuel w) = Some code -> code = 0%Z).
Proof.
  assert (Hrun : forall lb w rest,
             tokenize (lb_mem lb) = lit "exit" :: rest ->
             run_line wm lb w = ((Break, parsed_buf lb), w)).
  { intros lb w rest Htok.
    now rewrite (run_line_dispatch wm lb w _ _ Htok). }
  split; [exact Hrun|]. split.
  { intros lb w n lb' w2 rest fuel Hout Hread Hn Htok.
    assert (Hcycle : cycle wm lb w = ((Break, parsed_buf lb'), w2)).
    { rewrite (cycle_read wm lb w n lb' w2 Hout Hread).
      destruct (n <? 0)%Z eqn:E; [apply Z.ltb_lt in E; lia|].
      now apply (Hrun lb' w2 rest). }
    split; [exact Hcycle|].
    assert (Hloop : main_loop wm (S fuel) lb w = (Some (parsed_buf lb'), w2))
      by now apply main_loop_break.
    split; [exact Hloop|].
    intros ->. unfold main, bind. now rewrite Hloop. }
  split.
  { intros w fuel Hout Hend.
    destruct (cycle_no_line wm no_line w Hout) as (lb' & rest & Hcycle).
    { right. now right. }
    eexists. split.
    - unfold main, bind.
      rewrite (main_loop_break wm fuel no_line w _ _ Hcycle). reflexivity.
    - unfold prompted, emit. simpl. now rewrite <- app_assoc. }
  split; [apply main_ends|].
  apply main_exit_code.
Qed.

Lemma exit_stops_shell_witness :
  let w := sample_world (feed (lit "exit now" ++ [LF] ++ lit "ls" ++ [LF])) None in
  let r := read_line no_line (prompted w) in
  w_wr_err w STDOUT_FILENO = None /\
  (0 <= fst (fst r))%Z /\
  tokenize (lb_mem (snd (fst r))) = lit "exit" :: [lit "now"] /\
  main glibc_wait 1 w = (Some 0%Z, snd r) /\
  w_trace (snd r) = [] /\
  w_stdin (snd r) = feed (lit "ls" ++ [LF]).
Proof.
  cbv zeta.
  set (w := sample_world (feed (lit "exit now" ++ [LF] ++ lit "ls" ++ [LF])) None).
  set (r := read_line no_line (prompted w)).
  assert (Hout : w_wr_err w STDOUT_FILENO = None) by reflexivity.
  assert (Hread : read_line no_line (prompted w)
                  = ((fst (fst r), snd (fst r)), snd r)) by reflexivity.
  assert (Hn : (0 <= fst (fst r))%Z) by (vm_compute; discriminate).
  assert (Htok : tokenize (lb_mem (snd (fst r))) = lit "exit" :: [lit "now"])
    by reflexivity.
  split; [exact Hout|]. split; [exact Hn|]. split; [exact Htok|].
  split; [|split; reflexivity].
  exact (proj2 (proj2 (proj1 (proj2 (exit_stops_shell glibc_wait))
                         no_line w _ _ _ _ 0 Hout Hread Hn Htok))
           eq_refl).
Defined.

(** C8.  A read error on standard input, a failure to allocate the line
    buffer and a failure to grow it are handled as the end of the input
    is: the turn writes a newline to standard output and leaves the loop,
    nothing goes to standard error, no command is run, and [main] returns
    0. *)
Theorem read_failure_ends_shell (wm : wait_macros) (lb : linebuf) (w : world) :
  w_wr_err w STDOUT_FILENO = None ->
  no_line_read lb w ->
  exists lb' w',
    fst (fst (read_line lb (prompted w))) = (-1)%Z /\
    cycle wm lb w = ((Break, lb'), w') /\
    w_stdout w' = w_stdout w ++ firstn PROMPT_LEN PROMPT ++ [LF] /\
    w_stderr w' = w_stderr w /\
    w_trace w' = w_trace w /\
    w_cwd w' = w_cwd w /\
    (forall fuel, main_loop wm (S fuel) lb w = (Some lb', w')) /\
    (lb = no_line -> forall fuel, main wm (S fuel) w = (Some 0%Z, w')).
Proof.
  intros Hout Hcause.
  destruct (cycle_no_line wm lb w Hout Hcause) as (lb' & rest & Hcycle).
  exists lb', (emit STDOUT_FILENO [LF] (set_stdin rest (prompted w))).
  split; [apply read_line_no_line; now apply no_line_read_prompted|].
  split; [exact Hcycle|].
  split; [unfold prompted, emit; simpl; now rewrite <- app_assoc|].
  split; [reflexivity|]. split; [reflexivity|]. split; [reflexivity|].
  split.
  - intros fuel. now apply main_loop_break.
  - intros -> fuel. unfold main, bind.
    now rewrite (main_loop_break wm fuel no_line w _ _ Hcycle).
Qed.

Lemma stingy_line_fails :
  line_fails (fun n => (n <=? 256)%Z) (feed (repeat "a"%char 256)) 256 [].
Proof.
  cbv [feed repeat map].
  repeat (eapply line_fails_later; [discriminate | reflexivity | cbn [app]]).
  apply line_fails_grow; reflexivity.
Qed.

Lemma read_failure_ends_shell_witness :
  let broken := sample_world (feed (lit "ls") ++ [RdErr 5] ++ feed [LF]) None in
  let no_heap := stingy_world (feed (lit "ls" ++ [LF])) 0 in
  let full := stingy_world (feed (repeat "a"%char 256)) 256 in
  let done := sample_world [] None in
  no_line_read no_line broken /\
  no_line_read no_line no_heap /\
  no_line_read no_line full /\
  no_line_read no_line done /\
  (exists w', main glibc_wait 1 broken = (Some 0%Z, w') /\
              w_stdout w' = firstn PROMPT_LEN PROMPT ++ [LF] /\ w_stderr w' = []) /\
  (exists w', main glibc_wait 1 no_heap = (Some 0%Z, w') /\
              w_stdout w' = firstn PROMPT_LEN PROMPT ++ [LF] /\ w_stderr w' = []) /\
  (exists w', main glibc_wait 1 full = (Some 0%Z, w') /\
              w_stdout w' = firstn PROMPT_LEN PROMPT ++ [LF] /\ w_stderr w' = []) /\
  (exists w', main glibc_wait 1 done = (Some 0%Z, w') /\
              w_stdout w' = firstn PROMPT_LEN PROMPT ++ [LF] /\ w_stderr w' = []).
Proof.
  intros broken no_heap full done.
  assert (H1 : no_line_read no_line broken).
  { right. left. simpl.
    eapply line_fails_later; [discriminate | reflexivity |].
    eapply line_fails_later; [discriminate | reflexivity |].
    apply line_fails_read. }
  assert (H2 : no_line_read no_line no_heap).
  { left. split; [now left | reflexivity]. }
  assert (H3 : no_line_read no_line full).
  { right. left. exact stingy_line_fails. }
  assert (H4 : no_line_read no_line done).
  { right. right. now left. }
  repeat (split; [assumption|]).
  repeat split.
  - destruct (read_failure_ends_shell glibc_wait no_line broken eq_refl H1)
      as (lb' & w' & _ & _ & Hout & Herr & _ & _ & _ & Hmain).
    exists w'. split; [exact (Hmain eq_refl 0)|]. split; assumption.
  - destruct (read_failure_ends_shell glibc_wait no_line no_heap eq_refl H2)
      as (lb' & w' & _ & _ & Hout & Herr & _ & _ & _ & Hmain).
    exists w'. split; [exact (Hmain eq_refl 0)|]. split; assumption.
  - destruct (read_failure_ends_shell glibc_wait no_line full eq_refl H3)
      as (lb' & w' & _ & _ & Hout & Herr & _ & _ & _ & Hmain).
    exists w'. split; [exact (Hmain eq_refl 0)|]. split; assumption.
  - destruct (read_failure_ends_shell glibc_wait no_line done eq_refl H4)
      as (lb' & w' & _ & _ & Hout & Herr & _ & _ & _ & Hmain).
    exists w'. split; [exact (Hmain eq_refl 0)|]. split; assumption.
Defined.

(** ** The built-in [cd] *)

Lemma cd_target_arg w cmd rest :
  (if (Z.of_nat (length (cmd :: rest)) >=? 2)%Z
   then nth_error (cmd :: rest) 1 else w_home w)
  = cd_target w (cmd :: rest).
Proof.
  destruct rest as [|t rest]; [reflexivity|].
  replace (Z.of_nat (length (cmd :: t :: rest)) >=? 2)%Z with true;
    [reflexivity|].
  symmetry. apply Z.geb_le. simpl length. lia.
Qed.

Lemma sys_chdir_outcome target w :
  sys_chdir target w
  = match chdir_outcome w target with
    | inl d => (0%Z, set_cwd d (log (EvChdir target) w))
    | inr e => ((-1)%Z, set_errno e (log (EvChdir target) w))
    end.
Proof. unfold sys_chdir, chdir_outcome. now destruct target. Qed.

Lemma perror_ok tag w :
  w_wr_err w STDERR_FILENO = None ->
  perror tag w
  = (tt, emit STDERR_FILENO
           (tag ++ lit ": " ++ w_strerror w (w_errno w) ++ [LF]) w).
Proof. intros H. unfold perror, bind. now rewrite sys_write_ok. Qed.

(** What [builtin_cd] does, by the target and the answer of [chdir]. *)
Lemma builtin_cd_run w cmd rest :
  w_wr_err w STDERR_FILENO = None ->
  builtin_cd (cmd :: rest) (Z.of_nat (length (cmd :: rest))) w
  = match cd_target w (cmd :: rest) with
    | None => (tt, emit STDERR_FILENO (lit "cd: HOME not set" ++ [LF]) w)
    | Some t =>
        match chdir_outcome w t with
        | inl d => (tt, set_cwd d (log (EvChdir t) w))
        | inr e =>
            (tt, emit STDERR_FILENO
                   (lit "chdir: " ++ w_strerror w e ++ [LF])
                   (set_errno e (log (EvChdir t) w)))
        end
    end.
Proof.
  intros Herr. unfold builtin_cd. unfold bind at 1.
  assert (Htarget :
            (if (Z.of_nat (length (cmd :: rest)) >=? 2)%Z
             then ret (nth_error (cmd :: rest) 1) else sys_getenv_HOME) w
            = (cd_target w (cmd :: rest), w)).
  { rewrite <- cd_target_arg.
    now destruct (Z.of_nat (length (cmd :: rest)) >=? 2)%Z. }
  rewrite Htarget.
  destruct (cd_target w (cmd :: rest)) as [t|]; [|now apply write_str_ok].
  unfold bind. rewrite sys_chdir_outcome.
  destruct (chdir_outcome w t) as [d | e]; [reflexivity|].
  change (negb (-1 =? 0)%Z) with true. cbv iota.
  now rewrite perror_ok.
Qed.

(** [builtin_cd] in any world, whether or not standard error takes the
    diagnostics. *)
Lemma builtin_cd_any w cmd rest :
  builtin_cd (cmd :: rest) (Z.of_nat (length (cmd :: rest))) w
  = match cd_target w (cmd :: rest) with
    | None => write_str STDERR_FILENO (lit "cd: HOME not set" ++ [LF]) w
    | Some t =>
        match chdir_outcome w t with
        | inl d => (tt, set_cwd d (log (EvChdir t) w))
        | inr e => perror (lit "chdir") (set_errno e (log (EvChdir t) w))
        end
    end.
Proof.
  unfold builtin_cd. unfold bind at 1.
  assert (Htarget :
            (if (Z.of_nat (length (cmd :: rest)) >=? 2)%Z
             then ret (nth_error (cmd :: rest) 1) else sys_getenv_HOME) w
            = (cd_target w (cmd :: rest), w)).
  { rewrite <- cd_target_arg.
    now destruct (Z.of_nat (length (cmd :: rest)) >=? 2)%Z. }
  rewrite Htarget.
  destruct (cd_target w (cmd :: rest)) as [t|]; [|reflexivity].
  unfold bind. rewrite sys_chdir_outcome.
  destruct (chdir_outcome w t) as [d | e]; reflexivity.
Qed.

(** A write to standard error touches standard error alone, and only
    when the descriptor takes it. *)
Lemma stderr_write_fields data w :
  let w' := snd (sys_write STDERR_FILENO data w) in
  (w_wr_err w STDERR_FILENO = None -> w_stderr w' = w_stderr w ++ data) /\
  (w_wr_err w STDERR_FILENO <> None -> w_stderr w' = w_stderr w) /\
  w_cwd w' = w_cwd w /\ w_trace w' = w_trace w /\
  w_stdin w' = w_stdin w /\ w_stdout w' = w_stdout w /\
  w_children w' = w_children w.
Proof.
  cbv zeta. unfold sys_write.
  destruct (w_wr_err w STDERR_FILENO); cbn [snd]; repeat split;
    congruence.
Qed.

Lemma write_str_snd fd s w :
  snd (write_str fd s w) = snd (sys_write fd s w).
Proof. unfold write_str, bind. now destruct (sys_write fd s w). Qed.

Lemma perror_snd tag w :
  snd (perror tag w)
  = snd (sys_write STDERR_FILENO
           (tag ++ lit ": " ++ w_strerror w (w_errno w) ++ [LF]) w).
Proof. unfold perror, bind. now destruct (sys_write STDERR_FILENO _ w). Qed.

(** C6.  For a line whose first token is "cd" the target is the second
    token if there is one and [HOME] otherwise.  With neither, the
    diagnostic "cd: HOME not set" is written to standard error, [chdir] is
    not called and the working directory stays.  Otherwise [chdir] is
    called on the target: when it succeeds the working directory is the
    one it gives and nothing is written; when it fails the diagnostic
    "chdir: ..." is written to standard error and the working directory
    stays.  All of this holds in every world: whether descriptor 2 takes
    the write decides only if the diagnostic appears on standard error
    (it does when the write is accepted, and standard error is unchanged
    when it is refused), not where the shell is afterwards.  In every
    case [cd] reads no input, writes nothing to standard output, creates
    no child, and the loop goes on. *)
Theorem cd_builtin (w : world) (rest : list text) :
  let argv := lit "cd" :: rest in
  let w' := snd (builtin_cd argv (Z.of_nat (length argv)) w) in
  (forall t more, rest = t :: more -> cd_target w argv = Some t) /\
  (rest = [] -> cd_target w argv = w_home w) /\
  (cd_target w argv = None ->
     (w_wr_err w STDERR_FILENO = None ->
      w_stderr w' = w_stderr w ++ lit "cd: HOME not set" ++ [LF]) /\
     (w_wr_err w STDERR_FILENO <> None -> w_stderr w' = w_stderr w) /\
     w_cwd w' = w_cwd w /\ w_trace w' = w_trace w) /\
  (forall t d,
     cd_target w argv = Some t -> chdir_outcome w t = inl d ->
     w_cwd w' = d /\ w_stderr w' = w_stderr w /\
     w_trace w' = w_trace w ++ [EvChdir t]) /\
  (forall t e,
     cd_target w argv = Some t -> chdir_outcome w t = inr e ->
     (w_wr_err w STDERR_FILENO = None ->
      w_stderr w'
      = w_stderr w ++ lit "chdir: " ++ w_strerror w e ++ [LF]) /\
     (w_wr_err w STDERR_FILENO <> None -> w_stderr w' = w_stderr w) /\
     w_cwd w' = w_cwd w /\
     w_trace w' = w_trace w ++ [EvChdir t]) /\
  (w_stdin w' = w_stdin w /\ w_stdout w' = w_stdout w /\
   w_children w' = w_children w) /\
  (forall wm lb,
     tokenize (lb_mem lb) = argv ->
     run_line wm lb w = ((Continue, parsed_buf lb), w')).
Proof.
  cbv zeta.
  rewrite (builtin_cd_any w (lit "cd") rest).
  split; [now intros t more ->|].
  split; [now intros ->|].
  split.
  { intros ->. rewrite write_str_snd.
    destruct (stderr_write_fields (lit "cd: HOME not set" ++ [LF]) w)
      as (Hsaid & Hmute & Hcwd & Htr & _).
    repeat split; assumption. }
  split; [intros t d -> ->; cbn [snd]; repeat split|].
  split.
  { intros t e -> ->. rewrite perror_snd.
    destruct (stderr_write_fields
                (lit "chdir: "
                 ++ w_strerror (set_errno e (log (EvChdir t) w))
                      (w_errno (set_errno e (log (EvChdir t) w))) ++ [LF])
                (set_errno e (log (EvChdir t) w)))
      as (Hsaid & Hmute & Hcwd & Htr & _).
    repeat split; assumption. }
  split.
  { destruct (cd_target w (lit "cd" :: rest)) as [t|].
    - destruct (chdir_outcome w t) as [d | e]; [cbn [snd]; repeat split|].
      rewrite perror_snd.
      destruct (stderr_write_fields
                  (lit "chdir: "
                   ++ w_strerror (set_errno e (log (EvChdir t) w))
                        (w_errno (set_errno e (log (EvChdir t) w))) ++ [LF])
                  (set_errno e (log (EvChdir t) w)))
        as (_ & _ & _ & _ & Hin & Hout & Hch).
      repeat split; assumption.
    - rewrite write_str_snd.
      destruct (stderr_write_fields (lit "cd: HOME not set" ++ [LF]) w)
        as (_ & _ & _ & _ & Hin & Hout & Hch).
      repeat split; assumption. }
  intros wm lb Htok.
  rewrite (run_line_dispatch wm lb w _ _ Htok).
  change (streq (lit "cd") (lit "exit")) with false.
  change (streq (lit "cd") (lit "cd")) with true. cbv iota.
  unfold bind. change (S (length rest)) with (length (lit "cd" :: rest)).
  rewrite (builtin_cd_any w (lit "cd") rest).
  destruct (cd_target w (lit "cd" :: rest)) as [t|].
  - destruct (chdir_outcome w t) as [d | e]; [reflexivity|].
    now destruct (perror (lit "chdir") (set_errno e (log (EvChdir t) w)))
      as [[] w1].
  - now destruct (write_str STDERR_FILENO (lit "cd: HOME not set" ++ [LF]) w)
      as [[] w1].
Qed.

Lemma cd_builtin_witness :
  let w := sample_world [] (Some (lit "/tmp")) in
  let q := closed_stderr_world None in
  w_wr_err w STDERR_FILENO = None /\
  w_cwd w = lit "/" /\
  w_cwd (snd (builtin_cd [lit "cd"] 1 w)) = lit "/tmp" /\
  w_cwd (snd (builtin_cd [lit "cd"; lit "/nonexistent"] 2 w)) = lit "/" /\
  w_stderr (snd (builtin_cd [lit "cd"; lit "/nonexistent"] 2 w))
  = lit "chdir: No such file or directory" ++ [LF] /\
  w_wr_err q STDERR_FILENO = Some EBADF /\
  w_cwd q = lit "/" /\
  w_cwd (snd (builtin_cd [lit "cd"; lit "/tmp"] 2 q)) = lit "/tmp" /\
  w_cwd (snd (builtin_cd [lit "cd"] 1 q)) = lit "/" /\
  w_stderr (snd (builtin_cd [lit "cd"] 1 q)) = [] /\
  w_trace (snd (builtin_cd [lit "cd"; lit "/nonexistent"] 2 q))
  = [EvChdir (lit "/nonexistent")].
Proof.
  cbv zeta. split; [reflexivity|]. split; [reflexivity|].
  pose proof (cd_builtin (sample_world [] (Some (lit "/tmp"))) [])
    as Hhome.
  pose proof (cd_builtin (sample_world [] (Some (lit "/tmp")))
                [lit "/nonexistent"]) as Hbad.
  pose proof (cd_builtin (closed_stderr_world None) [lit "/tmp"]) as Hqok.
  pose proof (cd_builtin (closed_stderr_world None) []) as Hqnone.
  pose proof (cd_builtin (closed_stderr_world None) [lit "/nonexistent"])
    as Hqbad.
  cbv zeta in Hhome, Hbad, Hqok, Hqnone, Hqbad.
  destruct Hhome as (_ & _ & _ & Hok & _).
  destruct Hbad as (_ & _ & _ & _ & Hfail & _).
  destruct Hqok as (_ & _ & _ & Hqok & _).
  destruct Hqnone as (_ & _ & Hqnone & _).
  destruct Hqbad as (_ & _ & _ & _ & Hqbad & _).
  split; [exact (proj1 (Hok (lit "/tmp") (lit "/tmp") eq_refl eq_refl))|].
  destruct (Hfail (lit "/nonexistent") ENOENT eq_refl eq_refl)
    as (Hmsg & _ & Hcwd & _).
  split; [exact Hcwd|].
  split; [exact (Hmsg eq_refl)|].
  split; [reflexivity|]. split; [reflexivity|].
  split; [exact (proj1 (Hqok (lit "/tmp") (lit "/tmp") eq_refl eq_refl))|].
  destruct (Hqnone eq_refl) as (_ & Hqerr & Hqcwd & _).
  split; [exact Hqcwd|].
  split; [apply Hqerr; discriminate|].
  exact (proj2 (proj2 (proj2
           (Hqbad (lit "/nonexistent") ENOENT eq_refl eq_refl)))).
Defined.

(** C10.  With no argument and [HOME] set to the empty string, [cd] does
    not report "HOME not set": it calls [chdir] on the empty string,
    which fails, and the "chdir: ..." diagnostic is written.  The
    resolver treats the same [HOME] as if it were unset and tries only
    [/bin/cmd]. *)
Theorem cd_empty_home (w : world) :
  w_home w = Some [] ->
  w_wr_err w STDERR_FILENO = None ->
  let w' := snd (builtin_cd [lit "cd"] 1 w) in
  cd_target w [lit "cd"] = Some [] /\
  chdir_outcome w [] = inr ENOENT /\
  w_trace w' = w_trace w ++ [EvChdir []] /\
  w_stderr w' = w_stderr w ++ lit "chdir: " ++ w_strerror w ENOENT ++ [LF] /\
  w_stderr w' <> w_stderr w ++ lit "cd: HOME not set" ++ [LF] /\
  w_cwd w' = w_cwd w /\
  (forall cmd,
     fst (find_executable cmd PATH_BUF w)
     = if qualifies w (lit "/bin") cmd
       then Some (candidate (lit "/bin") cmd) else None).
Proof.
  intros Hhome Herr. cbv zeta.
  change 1%Z with (Z.of_nat (length [lit "cd"])).
  rewrite (builtin_cd_run w (lit "cd") [] Herr).
  unfold cd_target. rewrite Hhome. cbn [chdir_outcome snd].
  split; [reflexivity|]. split; [reflexivity|]. split; [reflexivity|].
  assert (Hmsg : w_stderr
                   (emit STDERR_FILENO
                      (lit "chdir: " ++ w_strerror w ENOENT ++ [LF])
                      (set_errno ENOENT (log (EvChdir []) w)))
                 = w_stderr w ++ lit "chdir: " ++ w_strerror w ENOENT ++ [LF])
    by reflexivity.
  split; [exact Hmsg|]. split.
  { rewrite Hmsg. intros H. apply app_inv_head in H. discriminate H. }
  split; [reflexivity|].
  intros cmd. rewrite find_executable_first_match. simpl fst.
  unfold first_match, home_dir. now rewrite Hhome.
Qed.

Lemma cd_empty_home_witness :
  let w := sample_world [] (Some []) in
  w_home w = Some [] /\
  w_wr_err w STDERR_FILENO = None /\
  w_stderr (snd (builtin_cd [lit "cd"] 1 w))
  = lit "chdir: No such file or directory" ++ [LF] /\
  fst (find_executable (lit "ls") PATH_BUF w) = Some (lit "/bin/ls").
Proof.
  cbv zeta. split; [reflexivity|]. split; [reflexivity|].
  pose proof (cd_empty_home (sample_world [] (Some [])) eq_refl eq_refl) as H.
  cbv zeta in H. destruct H as (_ & _ & _ & Hmsg & _ & _ & Hfind).
  split; [exact Hmsg | exact (Hfind (lit "ls"))].
Defined.

(* ================================================================== *)
(** * Further properties of the code *)

(** ** [write_int]: every [int], and the room in its buffer *)

Lemma digits_loop_length : forall room k x,
  (0 <= x < 10 ^ Z.of_nat k)%Z -> length (digits_loop room x []) <= k.
Proof.
  induction room as [|r IH]; intros k x Hx; [simpl; lia|].
  simpl. destruct (x >? 0)%Z eqn:Epos; [|simpl; lia].
  apply Z.gtb_lt in Epos.
  destruct k as [|k]; [simpl in Hx; lia|].
  rewrite Nat2Z.inj_succ, Z.pow_succ_r in Hx by lia.
  rewrite digits_loop_acc, length_app. simpl.
  assert (Hq : (0 <= Z.quot x 10 < 10 ^ Z.of_nat k)%Z).
  { rewrite Z.quot_div_nonneg by lia. split.
    - apply Z.div_pos; lia.
    - apply Z.div_lt_upper_bound; lia. }
  specialize (IH k _ Hq). lia.
Qed.

Lemma int_text_length x :
  (INT_MIN <= x <= INT_MAX)%Z -> length (int_text x) <= 11.
Proof.
  unfold INT_MIN, INT_MAX, int_text. intros Hx.
  destruct (x =? 0)%Z; [simpl; lia|].
  destruct (x <? 0)%Z eqn:Eneg.
  - apply Z.ltb_lt in Eneg.
    destruct (x =? INT_MIN)%Z eqn:Emin; [simpl; lia|].
    apply Z.eqb_neq in Emin. unfold INT_MIN in Emin.
    cbn [length]. rewrite length_rev.
    pose proof (digits_loop_length 32 10 (- x)) as H.
    assert ((0 <= - x < 10 ^ Z.of_nat 10)%Z) by (simpl; lia). lia.
  - apply Z.ltb_ge in Eneg. rewrite length_rev.
    pose proof (digits_loop_length 32 10 x) as H.
    assert ((0 <= x < 10 ^ Z.of_nat 10)%Z) by (simpl; lia). lia.
Qed.

(** X1.  For every 32-bit [int], [INT_MIN] and the negatives included,
    [write_int] on a descriptor that accepts writes appends one text and
    changes nothing else; the text reads back as the number in decimal
    notation, is at most 11 bytes long, and its digits take at most 10 of
    the 32 bytes of the local buffer. *)
Theorem write_int_decimal (fd : Z) (x : Z) (w : world) :
  w_wr_err w fd = None ->
  (INT_MIN <= x <= INT_MAX)%Z ->
  exists t,
    write_int fd x w = (tt, emit fd t w) /\
    decimal_value t = Some x /\
    length t <= 11 /\
    length (digits_loop 32 (Z.abs x) []) <= 10.
Proof.
  intros Hfd Hx. exists (int_text x).
  split; [now apply write_int_ok|].
  split; [now apply int_text_decimal|].
  split; [now apply int_text_length|].
  apply digits_loop_length. unfold INT_MIN, INT_MAX in Hx. simpl. lia.
Qed.

Lemma write_int_decimal_witness :
  let w := sample_world [] None in
  w_wr_err w STDOUT_FILENO = None /\
  (INT_MIN <= INT_MIN <= INT_MAX)%Z /\
  exists t,
    write_int STDOUT_FILENO INT_MIN w = (tt, emit STDOUT_FILENO t w) /\
    decimal_value t = Some INT_MIN.
Proof.
  cbv zeta. split; [reflexivity|].
  assert (Hx : (INT_MIN <= INT_MIN <= INT_MAX)%Z) by (vm_compute; intuition discriminate).
  split; [exact Hx|].
  destruct (write_int_decimal STDOUT_FILENO INT_MIN (sample_world [] None)
              eq_refl Hx) as (t & Hw & Hd & _).
  exists t. split; assumption.
Defined.

(** ** [build_path]: the bounds of the output buffer *)

(** X2.  For a prefix and a command name held in memory, [build_path]
    refuses exactly when prefix, "/", name and terminator need more than
    [out_sz] bytes; when it accepts, the string it leaves in [out] is
    prefix, "/", name, and with its terminator it fits in [out_sz]
    bytes. *)
Theorem build_path_bounds (out_sz : Z) (prefix cmd : text) :
  (str_len prefix + str_len cmd + 2 < 2 ^ 64)%Z ->
  (build_path out_sz prefix cmd = None <->
   (out_sz < str_len prefix + 1 + str_len cmd + 1)%Z) /\
  (forall path,
     build_path out_sz prefix cmd = Some path ->
     path = prefix ++ lit "/" ++ cmd /\
     (str_len path + 1 <= out_sz)%Z).
Proof.
  intros Hmem. unfold build_path, size_t.
  assert (0 <= str_len prefix)%Z by (unfold str_len; lia).
  assert (0 <= str_len cmd)%Z by (unfold str_len; lia).
  rewrite Z.mod_small by lia.
  destruct (str_len prefix + 1 + str_len cmd + 1 >? out_sz)%Z eqn:E.
  - apply Z.gtb_lt in E. split; [split; [lia | reflexivity]|].
    intros path Hp. discriminate Hp.
  - rewrite Z.gtb_ltb in E. apply Z.ltb_ge in E.
    split; [split; [discriminate | lia]|].
    intros path Hp. injection Hp as <-. split; [reflexivity|].
    unfold str_len in *. rewrite !length_app. simpl length. lia.
Qed.

Lemma build_path_bounds_witness :
  (str_len (lit "/bin") + str_len (lit "ls") + 2 < 2 ^ 64)%Z /\
  build_path PATH_BUF (lit "/bin") (lit "ls") = Some (lit "/bin/ls") /\
  (str_len (lit "/bin/ls") + 1 <= PATH_BUF)%Z.
Proof.
  assert (H : (str_len (lit "/bin") + str_len (lit "ls") + 2 < 2 ^ 64)%Z)
    by reflexivity.
  split; [exact H|]. split; [reflexivity|].
  exact (proj2 (proj2 (build_path_bounds PATH_BUF (lit "/bin") (lit "ls") H)
                  (lit "/bin/ls") eq_refl)).
Defined.

(** ** [starts_empty_or_ws] and [parse_line] agree *)

Lemma words_nil_blank s : words s = [] -> forallb is_ws s = true.
Proof.
  intros H. pose proof (Runs_words s) as Hr. rewrite H in Hr.
  inversion Hr. assumption.
Qed.

(** X3.  The line is empty or blank for [starts_empty_or_ws] exactly when
    [parse_line], given room for at least one token, finds none: after
    the first test of [main] the second one, [argc == 0], cannot hold. *)
Theorem blank_iff_no_token (line : text) (max_args : Z) :
  (2 <= max_args)%Z ->
  starts_empty_or_ws line = (argc_of (parse_line line max_args) =? 0)%Z.
Proof.
  intros Hmax. rewrite starts_empty_or_ws_spec.
  assert (Hargc : argc_of (parse_line line max_args)
                  = Z.of_nat (length (firstn (Z.to_nat (max_args - 1))
                                        (words (cstr line))))).
  { rewrite <- parse_line_words. unfold argc_of, args_of.
    now rewrite length_map. }
  rewrite Hargc, length_firstn.
  destruct (forallb is_ws (cstr line)) eqn:Eblank.
  - rewrite (words_ws _ Eblank). simpl. now rewrite Nat.min_0_r.
  - symmetry. apply Z.eqb_neq.
    destruct (words (cstr line)) as [|t ts] eqn:Ew.
    + apply words_nil_blank in Ew. congruence.
    + simpl length. lia.
Qed.

Lemma blank_iff_no_token_witness :
  (2 <= MAX_ARGS)%Z /\
  starts_empty_or_ws ([SP; TAB; SP; LF; NUL]) = true /\
  argc_of (parse_line ([SP; TAB; SP; LF; NUL]) MAX_ARGS) = 0%Z.
Proof.
  assert (H : (2 <= MAX_ARGS)%Z) by (vm_compute; discriminate).
  split; [exact H|].
  pose proof (blank_iff_no_token ([SP; TAB; SP; LF; NUL]) MAX_ARGS H) as E.
  assert (Hb : starts_empty_or_ws ([SP; TAB; SP; LF; NUL]) = true)
    by reflexivity.
  split; [exact Hb|].
  rewrite Hb in E. symmetry in E. now apply Z.eqb_eq in E.
Defined.

(** ** [read_line]: the line it returns *)

Lemma grow_always heap cap len :
  (forall n, heap n = true) -> exists cap', grow heap cap len = Some cap'.
Proof.
  intros Hheap. unfold grow.
  destruct (size_t (len + 2) >? cap)%Z; [|now exists cap].
  rewrite Hheap. now eexists.
Qed.

Lemma feed_app a b : feed (a ++ b) = feed a ++ feed b.
Proof. apply map_app. Qed.

(** The loop on a line that ends with a newline. *)
Lemma read_loop_newline heap :
  (forall n, heap n = true) ->
  forall s rest cap got,
    ~ In LF s ->
    exists cap',
      read_loop heap (feed s ++ RdByte LF :: rest) cap got
      = (str_len (got ++ s ++ [LF]), cap', (got ++ s ++ [LF]) ++ [NUL], rest).
Proof.
  intros Hheap. induction s as [|c s IH]; intros rest cap got Hs.
  - simpl. destruct (grow_always heap cap (str_len got) Hheap) as [cap' ->].
    now exists cap'.
  - simpl. destruct (grow_always heap cap (str_len got) Hheap) as [cap1 ->].
    destruct (Ascii.eqb c LF) eqn:E.
    { apply Ascii.eqb_eq in E. subst c. exfalso. apply Hs. now left. }
    destruct (IH rest cap1 (got ++ [c])) as [cap' Hrun].
    { intros Hin. apply Hs. now right. }
    exists cap'. rewrite Hrun.
    repeat (first [rewrite <- app_assoc | progress cbn [app]]). reflexivity.
Qed.

(** The loop on a line that the end of the input cuts short. *)
Lemma read_loop_partial heap :
  (forall n, heap n = true) ->
  forall s tail cap got,
    ~ In LF s -> got ++ s <> [] ->
    tail = [] \/ (exists rest, tail = RdEof :: rest) ->
    exists cap',
      read_loop heap (feed s ++ tail) cap got
      = (str_len (got ++ s), cap', (got ++ s) ++ [NUL], tl tail).
Proof.
  intros Hheap. induction s as [|c s IH]; intros tail cap got Hs Hne Htail.
  - rewrite app_nil_r in *. exists cap.
    assert (Hlen : (str_len got =? 0)%Z = false).
    { apply Z.eqb_neq. unfold str_len. destruct got; [congruence|].
      simpl length. lia. }
    destruct Htail as [-> | [rest ->]]; simpl; now rewrite Hlen.
  - simpl. destruct (grow_always heap cap (str_len got) Hheap) as [cap1 ->].
    destruct (Ascii.eqb c LF) eqn:E.
    { apply Ascii.eqb_eq in E. subst c. exfalso. apply Hs. now left. }
    destruct (IH tail cap1 (got ++ [c])) as [cap' Hrun].
    { intros Hin. apply Hs. now right. }
    { rewrite <- app_assoc. exact Hne. }
    { exact Htail. }
    exists cap'. rewrite Hrun.
    repeat (first [rewrite <- app_assoc | progress cbn [app]]). reflexivity.
Qed.

Lemma read_line_loop lb w :
  (forall n, w_heap w n = true) ->
  read_line lb w
  = match read_loop (w_heap w) (w_stdin w) (start_cap lb) [] with
    | (n, cap', mem, rest) => ((n, mkLinebuf true cap' mem), set_stdin rest w)
    end.
Proof.
  intros Hheap. unfold read_line. rewrite Hheap. simpl negb.
  now rewrite andb_false_r.
Qed.

(** X4.  With memory to be had, [read_line] on an input that holds a
    newline returns the bytes up to and including the first newline, with
    the terminator after them and their number as its value, and leaves
    exactly the bytes after that newline to be read. *)
Theorem read_line_newline (lb : linebuf) (w : world) (s : text) (rest : list rd) :
  (forall n, w_heap w n = true) ->
  w_stdin w = feed s ++ RdByte LF :: rest ->
  ~ In LF s ->
  exists lb',
    read_line lb w = ((str_len (s ++ [LF]), lb'), set_stdin rest w) /\
    lb_mem lb' = s ++ [LF; NUL] /\
    lb_alloc lb' = true /\
    cstr_at (lb_mem lb') (length s + 1) = [].
Proof.
  intros Hheap Hin Hs. rewrite (read_line_loop lb w Hheap), Hin.
  destruct (read_loop_newline (w_heap w) Hheap s rest (start_cap lb) [] Hs)
    as [cap' ->].
  eexists. split; [reflexivity|]. simpl lb_mem. simpl lb_alloc.
  rewrite <- app_assoc. simpl app.
  split; [reflexivity|]. split; [reflexivity|].
  replace (length s + 1) with (length (s ++ [LF]))
    by (rewrite length_app; reflexivity).
  change (s ++ [LF; NUL]) with (s ++ [LF] ++ [NUL]).
  rewrite app_assoc, cstr_at_app. reflexivity.
Qed.

Lemma read_line_newline_witness :
  let w := sample_world (feed (lit "ls -l" ++ [LF] ++ lit "exit" ++ [LF])) None in
  (forall n, w_heap w n = true) /\
  ~ In LF (lit "ls -l") /\
  exists lb',
    read_line no_line w
    = ((6%Z, lb'), set_stdin (feed (lit "exit" ++ [LF])) w) /\
    lb_mem lb' = lit "ls -l" ++ [LF; NUL].
Proof.
  intros w.
  assert (Hheap : forall n, w_heap w n = true) by reflexivity.
  assert (Hs : ~ In LF (lit "ls -l")).
  { simpl. intros H. repeat (destruct H as [H | H]; [discriminate H|]).
    exact H. }
  split; [exact Hheap|]. split; [exact Hs|].
  destruct (read_line_newline no_line w (lit "ls -l")
              (feed (lit "exit" ++ [LF])) Hheap eq_refl Hs)
    as (lb' & Hread & Hmem & _).
  exists lb'. split; [exact Hread | exact Hmem].
Defined.

(** X5.  With memory to be had, when the input ends after some bytes that
    hold no newline, [read_line] returns those bytes as a line, with the
    terminator after them and their number as its value: the end of the
    input is reported only by the next call. *)
Theorem read_line_partial (lb : linebuf) (w : world) (s : text) (tail : list rd) :
  (forall n, w_heap w n = true) ->
  w_stdin w = feed s ++ tail ->
  tail = [] \/ (exists rest, tail = RdEof :: rest) ->
  ~ In LF s -> s <> [] ->
  exists lb',
    read_line lb w = ((str_len s, lb'), set_stdin (tl tail) w) /\
    lb_mem lb' = s ++ [NUL] /\
    (tl tail = [] ->
     fst (fst (read_line lb' (set_stdin (tl tail) w))) = (-1)%Z).
Proof.
  intros Hheap Hin Htail Hs Hne. rewrite (read_line_loop lb w Hheap), Hin.
  destruct (read_loop_partial (w_heap w) Hheap s tail (start_cap lb) []
              Hs Hne Htail) as [cap' ->].
  eexists. split; [reflexivity|]. split; [reflexivity|].
  intros Hend. rewrite read_line_loop by exact Hheap.
  simpl w_stdin. rewrite Hend. simpl. reflexivity.
Qed.

Lemma read_line_partial_witness :
  let w := sample_world (feed (lit "exit")) None in
  (forall n, w_heap w n = true) /\
  ~ In LF (lit "exit") /\
  exists lb',
    read_line no_line w = ((4%Z, lb'), set_stdin [] w) /\
    lb_mem lb' = lit "exit" ++ [NUL].
Proof.
  intros w.
  assert (Hheap : forall n, w_heap w n = true) by reflexivity.
  assert (Hs : ~ In LF (lit "exit")).
  { simpl. intros H. repeat (destruct H as [H | H]; [discriminate H|]).
    exact H. }
  split; [exact Hheap|]. split; [exact Hs|].
  destruct (read_line_partial no_line w (lit "exit") [] Hheap eq_refl
              (or_introl eq_refl) Hs ltac:(discriminate))
    as (lb' & Hread & Hmem & _).
  exists lb'. split; [exact Hread | exact Hmem].
Defined.

(** ** [read_line]: the capacity of the buffer *)

(** The loop never stores past the capacity, and the capacity never
    shrinks.  [total] bounds the bytes that can still arrive. *)
Lemma read_loop_capacity heap : forall input cap got n cap' mem rest,
  read_loop heap input cap got = (n, cap', mem, rest) ->
  (0 <= n)%Z ->
  (1 <= cap)%Z -> (str_len got + 1 <= cap)%Z ->
  (str_len got + Z.of_nat (length input) < 2 ^ 62)%Z ->
  (str_len mem <= cap')%Z /\ (cap <= cap')%Z /\
  exists line, mem = line ++ [NUL] /\ n = str_len line.
Proof.
  induction input as [|ev input IH];
    intros cap got n cap' mem rest Hrun Hn Hcap Hroom Htotal.
  - simpl in Hrun. destruct (str_len got =? 0)%Z.
    + injection Hrun as <- _ _ _. lia.
    + injection Hrun as <- <- <- _. unfold str_len in *.
      rewrite length_app. simpl length.
      split; [lia|]. split; [lia|]. now exists got.
  - destruct ev as [c | | e]; simpl in Hrun.
    + unfold grow, size_t in Hrun.
      assert (Hlen : (0 <= str_len got)%Z) by (unfold str_len; lia).
      simpl length in Htotal.
      rewrite Z.mod_small in Hrun by lia.
      assert (Hgrown : exists cap1,
                 (str_len got + 2 <= cap1)%Z /\ (cap <= cap1)%Z /\
                 (if (str_len got + 2 >? cap)%Z
                  then (if heap (cap * 2 mod 2 ^ 64)%Z
                        then Some (cap * 2 mod 2 ^ 64)%Z else None)
                  else Some cap) = Some cap1 \/
                 (if (str_len got + 2 >? cap)%Z
                  then (if heap (cap * 2 mod 2 ^ 64)%Z
                        then Some (cap * 2 mod 2 ^ 64)%Z else None)
                  else Some cap) = None).
      { destruct (str_len got + 2 >? cap)%Z eqn:Efull.
        - apply Z.gtb_lt in Efull. rewrite Z.mod_small by lia.
          destruct (heap (cap * 2)%Z).
          + exists (cap * 2)%Z. left. repeat split; lia || reflexivity.
          + exists cap. now right.
        - rewrite Z.gtb_ltb in Efull. apply Z.ltb_ge in Efull.
          exists cap. left. repeat split; lia || reflexivity. }
      destruct Hgrown as [cap1 [(Hfit & Hle & Heq) | Heq]];
        rewrite Heq in Hrun.
      2:{ injection Hrun as <- _ _ _. lia. }
      assert (Hgot' : str_len (got ++ [c]) = (str_len got + 1)%Z).
      { unfold str_len. rewrite length_app. simpl length. lia. }
      destruct (Ascii.eqb c LF).
      * injection Hrun as <- <- <- _.
        split; [unfold str_len in *; rewrite !length_app in *;
                simpl length in *; lia|].
        split; [lia|]. now exists (got ++ [c]).
      * destruct (IH cap1 (got ++ [c]) n cap' mem rest Hrun Hn)
          as (Hmem & Hcap' & Hline); try lia.
        split; [exact Hmem|]. split; [lia | exact Hline].
    + destruct (str_len got =? 0)%Z.
      * injection Hrun as <- _ _ _. lia.
      * injection Hrun as <- <- <- _. unfold str_len in *.
        rewrite length_app. simpl length.
        split; [lia|]. split; [lia|]. now exists got.
    + injection Hrun as <- _ _ _. lia.
Qed.

(** X6.  Whenever [read_line] returns a line, the line and its terminator
    lie within the capacity it reports, which is at least the capacity it
    started with; the value returned is the length of the line, and the
    terminator sits right after it.  (The capacity passed in is not
    negative, and the input is shorter than 2^62 bytes.) *)
Theorem read_line_within_capacity
    (lb : linebuf) (w : world) (n : Z) (lb' : linebuf) (w' : world) :
  read_line lb w = ((n, lb'), w') ->
  (0 <= n)%Z ->
  (0 <= lb_cap lb)%Z ->
  (Z.of_nat (length (w_stdin w)) < 2 ^ 62)%Z ->
  (str_len (lb_mem lb') <= lb_cap lb')%Z /\
  (start_cap lb <= lb_cap lb')%Z /\
  exists line, lb_mem lb' = line ++ [NUL] /\ n = str_len line.
Proof.
  unfold read_line. intros Hread Hn Hcap Hlen.
  destruct ((negb (lb_alloc lb) || (lb_cap lb =? 0)%Z)
            && negb (w_heap w INITIAL_BUF)).
  { injection Hread as <- _ _. lia. }
  destruct (read_loop (w_heap w) (w_stdin w) (start_cap lb) [])
    as [[[n1 cap1] mem1] rest1] eqn:Hrun.
  injection Hread as <- <- _. simpl lb_mem. simpl lb_cap.
  assert (Hstart : (1 <= start_cap lb)%Z).
  { unfold start_cap, INITIAL_BUF.
    destruct (negb (lb_alloc lb)); simpl; [lia|].
    destruct (lb_cap lb =? 0)%Z eqn:E; [lia|].
    apply Z.eqb_neq in E. lia. }
  apply (read_loop_capacity (w_heap w) (w_stdin w) (start_cap lb) [] n1 cap1
           mem1 rest1 Hrun Hn Hstart); simpl; lia.
Qed.

Lemma read_line_within_capacity_witness :
  let w := sample_world (feed (repeat "a"%char 300 ++ [LF])) None in
  let r := read_line no_line w in
  (0 <= fst (fst r))%Z /\
  fst (fst r) = 301%Z /\
  lb_cap (snd (fst r)) = 512%Z /\
  (str_len (lb_mem (snd (fst r))) <= lb_cap (snd (fst r)))%Z.
Proof.
  intros w r.
  assert (Hread : read_line no_line w = ((fst (fst r), snd (fst r)), snd r))
    by reflexivity.
  assert (Hn : (0 <= fst (fst r))%Z) by (vm_compute; discriminate).
  split; [exact Hn|]. split; [vm_compute; reflexivity|].
  split; [vm_compute; reflexivity|].
  refine (proj1 (read_line_within_capacity no_line w _ _ _ Hread Hn _ _)).
  - vm_compute. discriminate.
  - vm_compute. reflexivity.
Defined.

(** ** [parse_line]: what it does to the line, and where [argv] points *)

Lemma blanked_refl s : blanked s s.
Proof. induction s; constructor; auto. Qed.

Lemma blanked_app a a' b b' :
  blanked a a' -> blanked b b' -> blanked (a ++ b) (a' ++ b').
Proof. apply Forall2_app. Qed.

Lemma increasing_from_weaken l : forall lo lo',
  lo' <= lo -> increasing_from lo l -> increasing_from lo' l.
Proof.
  destruct l as [|x l]; simpl; intros lo lo' Hle H; [exact I|].
  destruct H as [Hx Hl]. split; [lia | exact Hl].
Qed.

Lemma parse_loop_shape max : forall fuel pre suf argv,
  length suf <= fuel ->
  is_ws (hd NUL suf) = false ->
  exists suf' new,
    parse_loop fuel max (pre ++ suf) (length pre) argv
    = (pre ++ suf', argv ++ new) /\
    blanked suf suf' /\
    increasing_from (length pre) new /\
    Forall (fun off =>
              length pre <= off /\
              is_tokchar (nth (off - length pre) suf NUL) = true) new.
Proof.
  induction fuel as [|f IH]; intros pre suf argv Hfuel Hstart.
  - exists suf, []. simpl. rewrite app_nil_r.
    repeat split; auto using blanked_refl.
  - destruct (is_nul (hd NUL suf)) eqn:Enul.
    { exists suf, []. simpl. rewrite peek_at, Enul. simpl.
      rewrite app_nil_r. repeat split; auto using blanked_refl. }
    destruct (Z.of_nat (length argv) <? max - 1)%Z eqn:Elim.
    2:{ exists suf, []. simpl. rewrite peek_at, Enul, Elim. simpl.
        rewrite app_nil_r. repeat split; auto using blanked_refl. }
    destruct suf as [|c s]; [discriminate Enul|]. simpl in Enul, Hstart.
    destruct (split_token c s Enul Hstart)
      as (tok & rest & Hsplit & Hne & Htok & Hrest).
    assert (Hfirst : is_tokchar (nth 0 (c :: s) NUL) = true).
    { simpl. unfold is_tokchar. now rewrite Enul, Hstart. }
    rewrite Hsplit in *.
    destruct Hrest as [Hend | (d & wsr & suf & -> & Hd & Hws & Hsuf)].
    + exists (tok ++ rest), [length pre].
      rewrite parse_loop_last by assumption.
      split; [reflexivity|]. split; [apply blanked_refl|].
      split; [simpl; split; [lia | exact I]|].
      constructor; [|constructor]. rewrite Nat.sub_diag. split; [lia|].
      exact Hfirst.
    + rewrite parse_loop_more by assumption.
      assert (Hlen : length suf <= f).
      { simpl in Hfuel. rewrite length_app in Hfuel. simpl in Hfuel.
        rewrite length_app in Hfuel.
        assert (length tok <> 0) by (destruct tok; [congruence | discriminate]).
        lia. }
      destruct (IH (pre ++ tok ++ NUL :: wsr) suf (argv ++ [length pre])
                  Hlen Hsuf) as (suf' & new & Hrun & Hbl & Hinc & Hall).
      exists (tok ++ NUL :: wsr ++ suf'), (length pre :: new).
      rewrite Hrun.
      assert (Hpre : length (pre ++ tok ++ NUL :: wsr)
                     = length pre + length (tok ++ d :: wsr)).
      { rewrite ?length_app. cbn [length]. rewrite ?length_app.
        cbn [length]. lia. }
      split.
      { f_equal.
        - repeat (first [rewrite <- app_assoc | progress cbn [app]]).
          reflexivity.
        - now rewrite <- app_assoc. }
      split.
      { apply blanked_app; [apply blanked_refl|].
        constructor; [right; now split|].
        apply blanked_app; [apply blanked_refl | exact Hbl]. }
      split.
      { simpl. split; [lia|].
        apply (increasing_from_weaken new (length (pre ++ tok ++ NUL :: wsr)));
          [rewrite Hpre, length_app; cbn [length]; lia | exact Hinc]. }
      constructor.
      { rewrite Nat.sub_diag. split; [lia | exact Hfirst]. }
      rewrite Forall_forall in *. intros off Hoff.
      destruct (Hall off Hoff) as [Hlo Htc]. rewrite Hpre in Hlo, Htc.
      split; [lia|].
      change (tok ++ d :: wsr ++ suf) with (tok ++ (d :: wsr) ++ suf).
      rewrite app_assoc, app_nth2 by lia.
      replace (off - length pre - length (tok ++ d :: wsr))
        with (off - (length pre + length (tok ++ d :: wsr))) by lia.
      exact Htc.
Qed.

Lemma parse_line_shape line max :
  exists line' argv,
    parse_line line max = (line', argv) /\
    blanked line line' /\
    increasing_from 0 argv /\
    Forall (fun off => is_tokchar (peek line off) = true) argv.
Proof.
  unfold parse_line.
  pose proof (take_drop_while is_ws line) as Hsplit.
  set (pre := take_while is_ws line) in *.
  set (suf := drop_while is_ws line) in *.
  assert (Hpre : forallb is_ws pre = true) by apply take_while_all.
  assert (Hsuf : is_ws (hd NUL suf) = false).
  { pose proof (drop_while_head is_ws line) as H. fold suf in H.
    destruct suf; [reflexivity | exact H]. }
  assert (Hskip : skip_ws line 0 = length pre).
  { rewrite <- Hsplit.
    change (skip_ws (pre ++ suf) 0)
      with (skip_ws ([] ++ pre ++ suf) (length (@nil ascii))).
    rewrite skip_ws_at, take_while_prefix; [reflexivity | exact Hpre |].
    destruct suf; [exact I | exact Hsuf]. }
  rewrite Hskip.
  destruct (parse_loop_shape max (length line) pre suf [])
    as (suf' & new & Hrun & Hbl & Hinc & Hall).
  { rewrite <- Hsplit, length_app. lia. }
  { exact Hsuf. }
  exists (pre ++ suf'), new. rewrite <- Hsplit at 2. rewrite Hrun.
  split; [reflexivity|].
  split; [rewrite <- Hsplit; apply blanked_app;
          [apply blanked_refl | exact Hbl]|].
  split; [apply (increasing_from_weaken new (length pre)); [lia | exact Hinc]|].
  rewrite Forall_forall in *. intros off Hoff.
  destruct (Hall off Hoff) as [Hlo Htc].
  unfold peek. rewrite <- Hsplit, app_nth2 by lia. exact Htc.
Qed.

Lemma tokchar_in_bounds line off :
  is_tokchar (peek line off) = true -> off < length line.
Proof.
  intros H. destruct (Nat.lt_ge_cases off (length line)) as [Hlt | Hge];
    [exact Hlt|].
  unfold peek in H. rewrite nth_overflow in H by exact Hge. discriminate H.
Qed.

(** X7.  [parse_line] works in place and only ever overwrites separators:
    the line keeps its length, and each byte of it either stays as it was
    or was a separator and is now the terminator. *)
Theorem parse_line_in_place (line : text) (max_args : Z) :
  length (fst (parse_line line max_args)) = length line /\
  forall i,
    peek (fst (parse_line line max_args)) i = peek line i \/
    (peek (fst (parse_line line max_args)) i = NUL /\
     is_ws (peek line i) = true).
Proof.
  destruct (parse_line_shape line max_args)
    as (line' & argv & -> & Hbl & _). simpl fst.
  split; [symmetry; exact (Forall2_length Hbl)|].
  unfold peek. induction Hbl as [|x y a b Hxy _ IH]; intros i.
  - left. reflexivity.
  - destruct i as [|i]; simpl; [|apply IH].
    destruct Hxy as [-> | [-> Hx]]; [now left | now right].
Qed.

(** X8.  The pointers [parse_line] stores go up strictly, lie inside the
    line, and each points at a byte that is neither a separator nor the
    terminator. *)
Theorem parse_line_pointers (line : text) (max_args : Z) :
  increasing_from 0 (snd (parse_line line max_args)) /\
  Forall (fun off => off < length line /\ is_tokchar (peek line off) = true)
    (snd (parse_line line max_args)).
Proof.
  destruct (parse_line_shape line max_args)
    as (line' & argv & -> & _ & Hinc & Hall). simpl snd.
  split; [exact Hinc|].
  rewrite Forall_forall in *. intros off Hoff.
  split; [apply tokchar_in_bounds|]; now apply Hall.
Qed.

(** ** From the input to the tokens *)

Lemma runs_trailing_ws t : forallb is_ws t = true ->
  forall cur, runs cur t = match cur with [] => [] | _ => [cur] end.
Proof.
  induction t as [|c t IH]; intros Ht cur; simpl in *; [reflexivity|].
  apply andb_prop in Ht as [Hc Ht]. rewrite Hc.
  destruct cur; rewrite (IH Ht); reflexivity.
Qed.

Lemma words_trailing_ws s t :
  forallb is_ws t = true -> words (s ++ t) = words s.
Proof.
  intros Ht. unfold words. generalize (@nil ascii) as cur.
  induction s as [|c s IH]; intros cur; simpl.
  - now apply runs_trailing_ws.
  - destruct (is_ws c); [|apply IH].
    destruct cur; now rewrite IH.
Qed.

Lemma not_in_nul_free s :
  ~ In NUL s -> forallb (fun c => negb (is_nul c)) s = true.
Proof.
  induction s as [|c s IH]; simpl; intros H; [reflexivity|].
  rewrite IH by tauto. rewrite andb_true_r. apply negb_true_iff.
  unfold is_nul. apply Ascii.eqb_neq. intros ->. apply H. now left.
Qed.

(** X9.  Reading and parsing compose: when the input holds a line of text
    (no NUL byte in it) ended by a newline, and memory is to be had, the
    tokens [parse_line] finds in the buffer [read_line] filled are the
    first 127 words of that text; the newline belongs to no token. *)
Theorem read_then_tokenize (lb : linebuf) (w : world) (s : text) (rest : list rd) :
  (forall n, w_heap w n = true) ->
  w_stdin w = feed s ++ RdByte LF :: rest ->
  ~ In LF s -> ~ In NUL s ->
  tokenize (lb_mem (snd (fst (read_line lb w)))) = firstn 127 (words s).
Proof.
  intros Hheap Hin Hlf Hnul. rewrite (read_line_loop lb w Hheap), Hin.
  destruct (read_loop_newline (w_heap w) Hheap s rest (start_cap lb) [] Hlf)
    as [cap' ->].
  cbn [fst snd lb_mem app]. rewrite tokenize_words.
  change ((s ++ [LF]) ++ [NUL]) with ((s ++ [LF]) ++ NUL :: []).
  rewrite cstr_closed.
  - now rewrite words_trailing_ws.
  - rewrite forallb_app. rewrite not_in_nul_free by exact Hnul. reflexivity.
Qed.

Lemma read_then_tokenize_witness :
  let w := sample_world (feed (lit " cd   /tmp " ++ [LF])) None in
  (forall n, w_heap w n = true) /\
  ~ In LF (lit " cd   /tmp ") /\ ~ In NUL (lit " cd   /tmp ") /\
  tokenize (lb_mem (snd (fst (read_line no_line w)))) = [lit "cd"; lit "/tmp"].
Proof.
  intros w.
  assert (Hheap : forall n, w_heap w n = true) by reflexivity.
  assert (Hlf : ~ In LF (lit " cd   /tmp ")).
  { simpl. intros H. repeat (destruct H as [H | H]; [discriminate H|]).
    exact H. }
  assert (Hnul : ~ In NUL (lit " cd   /tmp ")).
  { simpl. intros H. repeat (destruct H as [H | H]; [discriminate H|]).
    exact H. }
  split; [exact Hheap|]. split; [exact Hlf|]. split; [exact Hnul|].
  exact (read_then_tokenize no_line w (lit " cd   /tmp ") [] Hheap eq_refl
           Hlf Hnul).
Defined.

(** ** Code that only writes *)

Lemma same_os_refl w : same_os w w.
Proof. unfold same_os. repeat split. Qed.

Lemma same_os_trans w1 w2 w3 : same_os w1 w2 -> same_os w2 w3 -> same_os w1 w3.
Proof. unfold same_os. intuition congruence. Qed.

Lemma same_os_emit fd data w : same_os w (emit fd data w).
Proof.
  unfold emit. destruct (fd =? STDOUT_FILENO)%Z; [repeat split|].
  destruct (fd =? STDERR_FILENO)%Z; repeat split.
Qed.

Lemma same_os_errno e w : same_os w (set_errno e w).
Proof. repeat split. Qed.

Lemma only_writes_ret {A} (a : A) : only_writes (ret a).
Proof. intros w. apply same_os_refl. Qed.

Lemma only_writes_bind {A B} (c : M A) (k : A -> M B) :
  only_writes c -> (forall a, only_writes (k a)) -> only_writes (bind c k).
Proof.
  intros Hc Hk w. unfold bind. specialize (Hc w).
  destruct (c w) as [a w1]. simpl in Hc.
  apply (same_os_trans w w1); [exact Hc | apply Hk].
Qed.

Lemma only_writes_sys_write fd data : only_writes (sys_write fd data).
Proof.
  intros w. unfold sys_write. destruct (w_wr_err w fd); cbn [snd].
  - apply same_os_errno.
  - apply same_os_emit.
Qed.

#[local] Hint Resolve only_writes_ret only_writes_bind only_writes_sys_write
  : shell.

Lemma only_writes_perror tag : only_writes (perror tag).
Proof. intros w. unfold perror. apply only_writes_bind; auto with shell. Qed.

Lemma only_writes_write_str fd s : only_writes (write_str fd s).
Proof. unfold write_str. auto with shell. Qed.

Lemma only_writes_write_chr fd c : only_writes (write_chr fd c).
Proof. unfold write_chr. auto with shell. Qed.

#[local] Hint Resolve only_writes_perror only_writes_write_str
  only_writes_write_chr : shell.

Lemma only_writes_write_back fd buf i : only_writes (write_back fd i buf).
Proof. induction i; simpl; auto with shell. Qed.

#[local] Hint Resolve only_writes_write_back : shell.

Lemma only_writes_write_int fd x : only_writes (write_int fd x).
Proof.
  unfold write_int. destruct (x =? 0)%Z; [auto with shell|].
  apply only_writes_bind.
  - destruct (x <? 0)%Z; [|auto with shell].
    apply only_writes_bind; [auto with shell|]. intros _.
    destruct (x =? INT_MIN)%Z; auto with shell.
  - intros [x'|]; auto with shell.
Qed.

#[local] Hint Resolve only_writes_write_int : shell.

Lemma only_writes_report_status wm status :
  only_writes (report_status wm status).
Proof.
  unfold report_status.
  destruct (WIFEXITED wm status); [auto 6 with shell|].
  destruct (WIFSIGNALED wm status); auto 6 with shell.
Qed.

Lemma only_writes_print_unknown cmd : only_writes (print_unknown cmd).
Proof. unfold print_unknown. auto 6 with shell. Qed.

(** ** The launcher: [execute_external] once the program is found *)

Lemma first_match_executable w cmd path :
  first_match w cmd = Some path -> w_access w (w_cwd w) path = true.
Proof.
  unfold first_match. intros H.
  destruct (home_dir w) as [h|].
  - destruct (qualifies w h cmd) eqn:Hq.
    + injection H as <-. now apply qualifies_executable.
    + destruct (qualifies w (lit "/bin") cmd) eqn:Hb; [|discriminate].
      injection H as <-. now apply qualifies_executable.
  - destruct (qualifies w (lit "/bin") cmd) eqn:Hb; [|discriminate].
    injection H as <-. now apply qualifies_executable.
Qed.

(** What follows the search, by what [fork] does. *)
Lemma execute_external_found wm argv w path :
  first_match w (argv0 argv) = Some path ->
  execute_external wm argv w
  = match w_children w with
    | [] => perror (lit "fork") (set_errno EAGAIN (log EvFork w))
    | ForkFails e :: rest =>
        perror (lit "fork") (set_errno e (set_children rest (log EvFork w)))
    | Spawned pid x wt :: rest =>
        (child_branch path argv x ;;;
         r <- sys_waitpid pid wt ;;
         if (fst r <? 0)%Z then perror (lit "waitpid")
         else report_status wm (snd r))
          (set_children rest (log EvFork w))
    end.
Proof.
  intros Hfound. unfold execute_external, bind at 1.
  rewrite find_executable_first_match, Hfound.
  unfold bind at 1, sys_fork. cbv zeta.
  change (w_children (log EvFork w)) with (w_children w).
  now destruct (w_children w) as [|[e | pid x wt] rest].
Qed.

Lemma child_branch_frame path argv x w1 :
  let w2 := snd (child_branch path argv x w1) in
  w_cwd w2 = w_cwd w1 /\ w_stdin w2 = w_stdin w1 /\
  w_children w2 = w_children w1 /\
  w_trace w2
  = w_trace w1 ++ EvExecv path argv
      :: match x with None => [] | Some _ => [EvChildExit 1] end.
Proof.
  cbv zeta. unfold child_branch. destruct x as [e|]; cbv zeta.
  - destruct (w_wr_err (log (EvExecv path argv) w1) STDERR_FILENO);
      cbn; rewrite <- ?app_assoc; repeat split.
  - cbn. repeat split.
Qed.

(** With a child: the child's branch, then [waitpid], then the report or
    the diagnostic. *)
Lemma execute_external_spawned wm argv w path pid x wt rest :
  first_match w (argv0 argv) = Some path ->
  w_children w = Spawned pid x wt :: rest ->
  execute_external wm argv w
  = let w2 := snd (child_branch path argv x
                     (set_children rest (log EvFork w))) in
    let w3 := log (EvWaitpid pid) w2 in
    match wt with
    | inl status =>
        if (pid <? 0)%Z then perror (lit "waitpid") w3
        else report_status wm status w3
    | inr e => perror (lit "waitpid") (set_errno e w3)
    end.
Proof.
  intros Hfound Hch. rewrite (execute_external_found wm argv w path Hfound).
  rewrite Hch. unfold bind at 1.
  destruct (child_branch path argv x (set_children rest (log EvFork w)))
    as [[] w2]. cbn [snd]. cbv zeta.
  unfold bind, sys_waitpid. cbv zeta.
  destruct wt; cbn [fst snd]; [destruct (pid <? 0)%Z|]; reflexivity.
Qed.

(** X10.  Whatever the world, one call of [execute_external] creates at
    most one child, and the calls it makes follow one of four courses:
    none at all (the program was not found); [fork] alone (it failed);
    [fork], [execv] in the child with the path found and the argument
    list unchanged, and [waitpid] on that very child; or the same with
    the child's [_exit(1)] after a failed [execv].  A path handed to
    [execv] was executable when checked, and the working directory and
    the pending input of the shell stay as they were. *)
Theorem launcher_protocol (wm : wait_macros) (argv : list text) (w : world) :
  let w' := snd (execute_external wm argv w) in
  w_cwd w' = w_cwd w /\
  w_stdin w' = w_stdin w /\
  length (w_children w) <= S (length (w_children w')) /\
  exists evs,
    w_trace w' = w_trace w ++ evs /\
    match first_match w (argv0 argv) with
    | None => evs = []
    | Some path =>
        w_access w (w_cwd w) path = true /\
        (evs = [EvFork] \/
         exists pid x wt rest,
           w_children w = Spawned pid x wt :: rest /\
           w_children w' = rest /\
           (evs = [EvFork; EvExecv path argv; EvWaitpid pid] \/
            evs = [EvFork; EvExecv path argv; EvChildExit 1; EvWaitpid pid]))
    end.
Proof.
  cbv zeta. destruct (first_match w (argv0 argv)) as [path|] eqn:Hfound.
  - pose proof (first_match_executable w _ _ Hfound) as Hx.
    destruct (w_children w) as [|[e | pid x wt] rest] eqn:Hch.
    + rewrite (execute_external_found wm argv w path Hfound), Hch.
      destruct (only_writes_perror (lit "fork") (set_errno EAGAIN (log EvFork w)))
        as (Hin & _ & _ & Hcwd & _ & _ & _ & Hc & _ & Htr).
      rewrite Hcwd, Hin, Hc, Htr. cbn [w_cwd w_stdin w_children w_trace set_errno log].
      rewrite Hch. repeat split; [simpl; lia|].
      exists [EvFork]. split; [reflexivity|]. split; [exact Hx | now left].
    + rewrite (execute_external_found wm argv w path Hfound), Hch.
      destruct (only_writes_perror (lit "fork")
                  (set_errno e (set_children rest (log EvFork w))))
        as (Hin & _ & _ & Hcwd & _ & _ & _ & Hc & _ & Htr).
      rewrite Hcwd, Hin, Hc, Htr. repeat split; [simpl; lia|].
      exists [EvFork]. split; [reflexivity|]. split; [exact Hx | now left].
    + rewrite (execute_external_spawned wm argv w path pid x wt rest Hfound Hch).
      cbv zeta.
      destruct (child_branch_frame path argv x
                  (set_children rest (log EvFork w)))
        as (Hcwd2 & Hin2 & Hc2 & Htr2).
      set (w2 := snd (child_branch path argv x
                        (set_children rest (log EvFork w)))) in *.
      cbn [w_cwd w_stdin w_children w_trace set_children log] in Hcwd2, Hin2, Hc2, Htr2.
      assert (Hrest : forall w3,
                 same_os (log (EvWaitpid pid) w2) w3 ->
                 w_cwd w3 = w_cwd w /\ w_stdin w3 = w_stdin w /\
                 length (Spawned pid x wt :: rest) <= S (length (w_children w3)) /\
                 exists evs0,
                   w_trace w3 = w_trace w ++ evs0 /\
                   w_access w (w_cwd w) path = true /\
                   (evs0 = [EvFork] \/
                    exists pid0 x0 wt0 rest0,
                      Spawned pid x wt :: rest = Spawned pid0 x0 wt0 :: rest0 /\
                      w_children w3 = rest0 /\
                      (evs0 = [EvFork; EvExecv path argv; EvWaitpid pid0] \/
                       evs0 = [EvFork; EvExecv path argv; EvChildExit 1;
                               EvWaitpid pid0]))).
      { intros w3 (Hin & _ & _ & Hcwd & _ & _ & _ & Hc & _ & Htr).
        cbn [w_stdin w_cwd w_children w_trace log] in Hin, Hcwd, Hc, Htr.
        rewrite Hcwd, Hin, Hc, Hcwd2, Hin2, Hc2.
        repeat split; [simpl; lia|].
        eexists. split; [rewrite Htr, Htr2, <- !app_assoc; reflexivity|].
        split; [exact Hx|]. right. exists pid, x, wt, rest.
        split; [reflexivity|]. split; [reflexivity|].
        destruct x; [now right | now left]. }
      destruct wt as [status | e].
      * destruct (pid <? 0)%Z; apply Hrest.
        -- apply (only_writes_perror (lit "waitpid")).
        -- apply only_writes_report_status.
      * apply Hrest.
        apply (same_os_trans _ (set_errno e (log (EvWaitpid pid) w2)));
          [apply same_os_errno | apply (only_writes_perror (lit "waitpid"))].
  - assert (Heq : execute_external wm argv w = print_unknown (argv0 argv) w).
    { unfold execute_external, bind at 1.
      now rewrite find_executable_first_match, Hfound. }
    rewrite Heq.
    destruct (only_writes_print_unknown (argv0 argv) w)
      as (Hin & _ & _ & Hcwd & _ & _ & _ & Hc & _ & Htr).
    rewrite Hcwd, Hin, Hc. repeat split; [lia|].
    exists []. now rewrite Htr, app_nil_r.
Qed.

(** X11.  When the program is found and [fork] and [waitpid] succeed, the
    launcher runs [execv] in the child with the path found and the
    argument list as it was parsed, waits for that child, and writes to
    standard output the report for the status [waitpid] gave; nothing
    goes to standard error. *)
Theorem launch_reports_status
    (wm : wait_macros) (argv : list text) (w : world)
    (path : text) (pid status : Z) (rest : list child) :
  first_match w (argv0 argv) = Some path ->
  w_children w = Spawned pid None (inl status) :: rest ->
  (0 < pid)%Z ->
  w_wr_err w STDOUT_FILENO = None ->
  let w' := snd (execute_external wm argv w) in
  w_stdout w' = w_stdout w ++ message (classify wm status) ++ [LF] /\
  w_stderr w' = w_stderr w /\
  w_trace w' = w_trace w ++ [EvFork; EvExecv path argv; EvWaitpid pid] /\
  w_children w' = rest.
Proof.
  intros Hfound Hch Hpid Hout. cbv zeta.
  rewrite (execute_external_spawned wm argv w path pid None (inl status) rest
             Hfound Hch).
  cbv zeta. replace (pid <? 0)%Z with false by (symmetry; apply Z.ltb_ge; lia).
  rewrite report_status_ok by exact Hout.
  cbn. rewrite <- ?app_assoc. repeat split.
Qed.

Lemma launch_reports_status_witness :
  let w := sample_world [] None in
  let w' := snd (execute_external glibc_wait [lit "ls"; lit "-l"] w) in
  first_match w (lit "ls") = Some (lit "/bin/ls") /\
  w_wr_err w STDOUT_FILENO = None /\
  w_stdout w' = lit "Command executed successfully. Return code: 3" ++ [LF] /\
  w_trace w'
  = [EvFork; EvExecv (lit "/bin/ls") [lit "ls"; lit "-l"]; EvWaitpid 7].
Proof.
  intros w w'. split; [reflexivity|]. split; [reflexivity|].
  destruct (launch_reports_status glibc_wait [lit "ls"; lit "-l"] w
              (lit "/bin/ls") 7 768 [] eq_refl eq_refl eq_refl eq_refl)
    as (Hout & _ & Htr & _).
  split; [exact Hout | exact Htr].
Defined.

(** X12.  When the program is found but [fork] fails, the launcher writes
    the diagnostic "fork: ..." to standard error and gives the command
    up: no [execv], no [waitpid], no report on standard output. *)
Theorem launch_fork_fails
    (wm : wait_macros) (argv : list text) (w : world)
    (path : text) (e : Z) (rest : list child) :
  first_match w (argv0 argv) = Some path ->
  w_children w = ForkFails e :: rest ->
  w_wr_err w STDERR_FILENO = None ->
  let w' := snd (execute_external wm argv w) in
  w_stderr w' = w_stderr w ++ lit "fork: " ++ w_strerror w e ++ [LF] /\
  w_stdout w' = w_stdout w /\
  w_trace w' = w_trace w ++ [EvFork] /\
  w_children w' = rest.
Proof.
  intros Hfound Hch Herr. cbv zeta.
  rewrite (execute_external_found wm argv w path Hfound), Hch.
  rewrite perror_ok by exact Herr. cbn. rewrite <- ?app_assoc.
  repeat split.
Qed.

Lemma launch_fork_fails_witness :
  let w := set_children [ForkFails EAGAIN] (sample_world [] None) in
  let w' := snd (execute_external glibc_wait [lit "ls"] w) in
  first_match w (lit "ls") = Some (lit "/bin/ls") /\
  w_stderr w' = lit "fork: Unknown error" ++ [LF] /\
  w_stdout w' = [] /\
  w_trace w' = [EvFork].
Proof.
  intros w w'. split; [reflexivity|].
  destruct (launch_fork_fails glibc_wait [lit "ls"] w (lit "/bin/ls") EAGAIN []
              eq_refl eq_refl eq_refl) as (Herr & Hout & Htr & _).
  repeat split; assumption.
Defined.

(** X13.  When [execv] fails in the child, the child writes the
    diagnostic "execv: ..." to standard error and ends with [_exit(1)];
    the parent still waits for it and reports the status it is given. *)
Theorem launch_exec_fails
    (wm : wait_macros) (argv : list text) (w : world)
    (path : text) (pid e status : Z) (rest : list child) :
  first_match w (argv0 argv) = Some path ->
  w_children w = Spawned pid (Some e) (inl status) :: rest ->
  (0 < pid)%Z ->
  w_wr_err w STDOUT_FILENO = None ->
  w_wr_err w STDERR_FILENO = None ->
  let w' := snd (execute_external wm argv w) in
  w_stderr w' = w_stderr w ++ lit "execv: " ++ w_strerror w e ++ [LF] /\
  w_stdout w' = w_stdout w ++ message (classify wm status) ++ [LF] /\
  w_trace w'
  = w_trace w ++ [EvFork; EvExecv path argv; EvChildExit 1; EvWaitpid pid].
Proof.
  intros Hfound Hch Hpid Hout Herr. cbv zeta.
  rewrite (execute_external_spawned wm argv w path pid (Some e) (inl status)
             rest Hfound Hch).
  cbv zeta. replace (pid <? 0)%Z with false by (symmetry; apply Z.ltb_ge; lia).
  unfold child_branch. cbv zeta.
  change (w_wr_err (log (EvExecv path argv) (set_children rest (log EvFork w)))
            STDERR_FILENO) with (w_wr_err w STDERR_FILENO).
  rewrite Herr. cbn [snd].
  rewrite report_status_ok by exact Hout.
  cbn. rewrite <- ?app_assoc. repeat split.
Qed.

Lemma launch_exec_fails_witness :
  let w := set_children [Spawned 8 (Some ENOENT) (inl 256%Z)]
             (sample_world [] None) in
  let w' := snd (execute_external glibc_wait [lit "ls"] w) in
  first_match w (lit "ls") = Some (lit "/bin/ls") /\
  w_stderr w' = lit "execv: No such file or directory" ++ [LF] /\
  w_stdout w' = lit "Command executed successfully. Return code: 1" ++ [LF].
Proof.
  intros w w'. split; [reflexivity|].
  destruct (launch_exec_fails glibc_wait [lit "ls"] w (lit "/bin/ls") 8 ENOENT
              256 [] eq_refl eq_refl eq_refl eq_refl eq_refl)
    as (Herr & Hout & _).
  split; assumption.
Defined.



(** ** A failing write *)

Lemma sys_write_fails fd data w e :
  w_wr_err w fd = Some e -> sys_write fd data w = ((-1)%Z, set_errno e w).
Proof. intros H. unfold sys_write. now rewrite H. Qed.

Lemma write_str_fails fd s w e :
  w_wr_err w fd = Some e -> write_str fd s w = (tt, set_errno e w).
Proof. intros H. unfold write_str, bind. now rewrite (sys_write_fails fd s w e). Qed.

Lemma write_chr_fails fd c w e :
  w_wr_err w fd = Some e -> write_chr fd c w = (tt, set_errno e w).
Proof. intros H. unfold write_chr, bind. now rewrite (sys_write_fails fd _ w e). Qed.

Lemma write_back_fails fd buf e : forall i w,
  w_wr_err w fd = Some e ->
  write_back fd i buf (set_errno e w) = (tt, set_errno e w).
Proof.
  induction i as [|i IH]; intros w H; [reflexivity|].
  simpl. unfold bind.
  rewrite (write_chr_fails fd _ (set_errno e w) e) by exact H.
  exact (IH w H).
Qed.

Lemma write_int_fails fd x w e :
  w_wr_err w fd = Some e -> write_int fd x w = (tt, set_errno e w).
Proof.
  intros H. unfold write_int.
  destruct (x =? 0)%Z eqn:E0; [now apply write_chr_fails|].
  apply Z.eqb_neq in E0. unfold bind at 1.
  destruct (x <? 0)%Z eqn:Eneg.
  - unfold bind at 1. rewrite (write_chr_fails fd _ w e H).
    destruct (x =? INT_MIN)%Z.
    + unfold bind, ret.
      now rewrite (write_str_fails fd _ (set_errno e w) e H).
    + unfold ret at 1. now apply write_back_fails.
  - unfold ret at 1. apply Z.ltb_ge in Eneg.
    destruct (digits_loop 32 x []) as [|c buf] eqn:Ebuf.
    + exfalso. apply (digits_loop_nonempty 31 x); [lia | exact Ebuf].
    + cbn [length write_back]. unfold bind.
      rewrite (write_chr_fails fd _ w e H). now apply write_back_fails.
Qed.

(** X15.  The output helpers ignore a failing [write]: when the descriptor
    refuses writes, [write_str], [write_chr], [write_int], the status
    report and the "Unknown Command" message write nothing, change
    nothing but [errno], and return as usual. *)
Theorem write_failure_ignored (w : world) (fd e : Z) :
  w_wr_err w fd = Some e ->
  (forall s, write_str fd s w = (tt, set_errno e w)) /\
  (forall c, write_chr fd c w = (tt, set_errno e w)) /\
  (forall x, write_int fd x w = (tt, set_errno e w)) /\
  (fd = STDOUT_FILENO ->
   forall wm status, report_status wm status w = (tt, set_errno e w)) /\
  (fd = STDERR_FILENO ->
   forall cmd, print_unknown cmd w = (tt, set_errno e w)).
Proof.
  intros H.
  split; [intros s; now apply write_str_fails|].
  split; [intros c; now apply write_chr_fails|].
  split; [intros x; now apply write_int_fails|].
  split.
  - intros -> wm status. unfold report_status.
    destruct (WIFEXITED wm status); [|destruct (WIFSIGNALED wm status)].
    + unfold bind. rewrite (write_str_fails _ _ w e H).
      rewrite (write_int_fails _ _ (set_errno e w) e H).
      now rewrite (write_chr_fails _ _ (set_errno e w) e H).
    + unfold bind. rewrite (write_str_fails _ _ w e H).
      rewrite (write_int_fails _ _ (set_errno e w) e H).
      now rewrite (write_chr_fails _ _ (set_errno e w) e H).
    + now apply write_str_fails.
  - intros -> cmd. unfold print_unknown, bind.
    rewrite (write_chr_fails _ _ w e H).
    rewrite (write_str_fails _ _ (set_errno e w) e H).
    now rewrite (write_str_fails _ _ (set_errno e w) e H).
Qed.

Lemma write_failure_ignored_witness :
  let w := mkWorld [] [] [] (fun _ => Some 9%Z) None (lit "/")
             (fun _ _ => false) (fun _ _ => inr ENOENT) (fun _ => true)
             [] 0%Z (fun _ => lit "Unknown error") [] in
  w_wr_err w STDOUT_FILENO = Some 9%Z /\
  w_stdout (snd (write_int STDOUT_FILENO (-42) w)) = [] /\
  w_stderr (snd (print_unknown (lit "frobnicate") w)) = [].
Proof.
  intros w. split; [reflexivity|].
  destruct (write_failure_ignored w STDOUT_FILENO 9 eq_refl)
    as (_ & _ & Hint & _).
  destruct (write_failure_ignored w STDERR_FILENO 9 eq_refl)
    as (_ & _ & _ & _ & Hunk).
  rewrite (Hint (-42)%Z), (Hunk eq_refl (lit "frobnicate")).
  split; reflexivity.
Defined.

(** ** The prompt *)



(** ** Output only grows, and a turn starts with the prompt *)

Lemma appends_ret {A} (a : A) : appends (ret a).
Proof. intros w. exists [], []. simpl. now rewrite !app_nil_r. Qed.

Lemma appends_bind {A B} (c : M A) (k : A -> M B) :
  appends c -> (forall a, appends (k a)) -> appends (bind c k).
Proof.
  intros Hc Hk w. unfold bind. destruct (Hc w) as (o1 & e1 & Ho1 & He1).
  destruct (c w) as [a w1]. simpl in Ho1, He1.
  destruct (Hk a w1) as (o2 & e2 & Ho2 & He2).
  exists (o1 ++ o2), (e1 ++ e2).
  rewrite Ho2, He2, Ho1, He1. now rewrite !app_assoc.
Qed.

Lemma appends_same {A} (c : M A) :
  (forall w, w_stdout (snd (c w)) = w_stdout w /\
             w_stderr (snd (c w)) = w_stderr w) ->
  appends c.
Proof.
  intros H w. destruct (H w) as [Ho He]. exists [], [].
  now rewrite Ho, He, !app_nil_r.
Qed.

Lemma appends_emit fd data w :
  exists out err,
    w_stdout (emit fd data w) = w_stdout w ++ out /\
    w_stderr (emit fd data w) = w_stderr w ++ err.
Proof.
  unfold emit. destruct (fd =? STDOUT_FILENO)%Z.
  - exists data, []. simpl. now rewrite app_nil_r.
  - destruct (fd =? STDERR_FILENO)%Z.
    + exists [], data. simpl. now rewrite app_nil_r.
    + exists [], []. now rewrite !app_nil_r.
Qed.

Lemma appends_sys_write fd data : appends (sys_write fd data).
Proof.
  intros w. unfold sys_write. destruct (w_wr_err w fd); cbn [snd].
  - exists [], []. simpl. now rewrite !app_nil_r.
  - apply appends_emit.
Qed.

Lemma appends_getenv : appends sys_getenv_HOME.
Proof. apply appends_same. intros w. now split. Qed.

Lemma appends_access path : appends (sys_access_x path).
Proof. apply appends_same. intros w. now split. Qed.

Lemma appends_chdir target : appends (sys_chdir target).
Proof.
  apply appends_same. intros w. unfold sys_chdir.
  destruct target; [now split|]. cbv zeta. now destruct (w_chdir _ _ _).
Qed.

Lemma appends_fork : appends sys_fork.
Proof.
  apply appends_same. intros w. unfold sys_fork. cbv zeta.
  change (w_children (log EvFork w)) with (w_children w).
  now destruct (w_children w) as [|[e | pid x wt] rest].
Qed.

Lemma appends_waitpid pid wt : appends (sys_waitpid pid wt).
Proof. apply appends_same. intros w. unfold sys_waitpid. now destruct wt. Qed.

Lemma appends_child path argv x : appends (child_branch path argv x).
Proof.
  intros w. unfold child_branch. destruct x as [e|]; cbv zeta.
  - destruct (w_wr_err (log (EvExecv path argv) w) STDERR_FILENO); cbn [snd].
    + exists [], []. simpl. now rewrite !app_nil_r.
    + eexists [], _. simpl. rewrite app_nil_r. split; reflexivity.
  - exists [], []. simpl. now rewrite !app_nil_r.
Qed.

Lemma appends_read_line lb : appends (read_line lb).
Proof.
  apply appends_same. intros w.
  destruct (read_line_frame lb w) as (rest & -> & _). now split.
Qed.

#[local] Hint Resolve appends_ret appends_bind appends_sys_write
  appends_getenv appends_access appends_chdir appends_fork appends_waitpid
  appends_child appends_read_line : shell.

Lemma appends_perror tag : appends (perror tag).
Proof. intros w. unfold perror. apply appends_bind; auto with shell. Qed.

Lemma appends_write_str fd s : appends (write_str fd s).
Proof. unfold write_str. auto with shell. Qed.

Lemma appends_write_chr fd c : appends (write_chr fd c).
Proof. unfold write_chr. auto with shell. Qed.

#[local] Hint Resolve appends_perror appends_write_str appends_write_chr
  : shell.

Lemma appends_write_back fd buf i : appends (write_back fd i buf).
Proof. induction i; simpl; auto with shell. Qed.

#[local] Hint Resolve appends_write_back : shell.

Lemma appends_write_int fd x : appends (write_int fd x).
Proof.
  unfold write_int. destruct (x =? 0)%Z; [auto with shell|].
  apply appends_bind.
  - destruct (x <? 0)%Z; [|auto with shell].
    apply appends_bind; [auto with shell|]. intros _.
    destruct (x =? INT_MIN)%Z; auto with shell.
  - intros [x'|]; auto with shell.
Qed.

#[local] Hint Resolve appends_write_int : shell.

Lemma appends_report_status wm status : appends (report_status wm status).
Proof.
  unfold report_status.
  destruct (WIFEXITED wm status); [auto 6 with shell|].
  destruct (WIFSIGNALED wm status); auto 6 with shell.
Qed.

Lemma appends_find_executable cmd sz : appends (find_executable cmd sz).
Proof.
  unfold find_executable. apply appends_bind; [auto with shell|].
  intros home. apply appends_bind.
  - destruct home as [[|h0 h']|]; auto with shell.
    destruct (build_path sz (h0 :: h') cmd); auto with shell.
  - intros [out|]; auto with shell.
    destruct (build_path sz (lit "/bin") cmd); auto with shell.
Qed.

Lemma appends_print_unknown cmd : appends (print_unknown cmd).
Proof. unfold print_unknown. auto 6 with shell. Qed.

#[local] Hint Resolve appends_report_status appends_find_executable
  appends_print_unknown : shell.

Lemma appends_execute_external wm argv : appends (execute_external wm argv).
Proof.
  unfold execute_external. apply appends_bind; [auto with shell|].
  intros [path|]; [|auto with shell].
  apply appends_bind; [auto with shell|].
  intros [pid [[x wt]|]]; [|auto with shell].
  apply appends_bind; [auto with shell|]. intros _.
  apply appends_bind; [auto with shell|]. intros r.
  destruct (fst r <? 0)%Z; auto with shell.
Qed.

Lemma appends_builtin_cd argv argc : appends (builtin_cd argv argc).
Proof.
  unfold builtin_cd. apply appends_bind.
  - destruct (argc >=? 2)%Z; auto with shell.
  - intros [t|]; [|auto with shell].
    apply appends_bind; [auto with shell|]. intros r.
    destruct (negb (r =? 0)%Z); auto with shell.
Qed.

#[local] Hint Resolve appends_execute_external appends_builtin_cd : shell.

Lemma appends_run_line wm lb : appends (run_line wm lb).
Proof.
  unfold run_line. destruct (starts_empty_or_ws (lb_mem lb));
    [auto with shell|].
  cbv zeta. destruct (argc_of _ =? 0)%Z; [auto with shell|].
  destruct (streq _ (lit "exit")); [auto with shell|].
  destruct (streq _ (lit "cd")); auto with shell.
Qed.

#[local] Hint Resolve appends_run_line : shell.

Lemma appends_cycle wm lb : appends (cycle wm lb).
Proof.
  unfold cycle. apply appends_bind; [auto with shell|]. intros r.
  destruct (r <? 0)%Z; [auto with shell|].
  apply appends_bind; [auto with shell|]. intros rl.
  destruct (fst rl <? 0)%Z; auto with shell.
Qed.

#[local] Hint Resolve appends_cycle : shell.

Lemma appends_main_loop wm : forall fuel lb, appends (main_loop wm fuel lb).
Proof.
  induction fuel as [|fuel IH]; intros lb; simpl; [auto with shell|].
  apply appends_bind; [auto with shell|].
  intros [[|] lb']; auto with shell.
Qed.

(** After a prompt that was written, what the rest of the turn does. *)
Lemma cycle_after_prompt wm lb w :
  w_wr_err w STDOUT_FILENO = None ->
  cycle wm lb w
  = (rl <- read_line lb ;;
     if (fst rl <? 0)%Z
     then write_chr STDOUT_FILENO LF ;;; ret (Break, snd rl)
     else run_line wm (snd rl)) (prompted w).
Proof.
  intros Hout. unfold cycle, bind at 1.
  rewrite sys_write_ok by exact Hout.
  change (Z.of_nat (length (firstn PROMPT_LEN PROMPT)) <? 0)%Z with false.
  reflexivity.
Qed.

Lemma main_world wm fuel w :
  snd (main wm (S fuel) w)
  = match cycle wm no_line w with
    | ((Continue, lb1), w1) => snd (main_loop wm fuel lb1 w1)
    | ((Break, _), w1) => w1
    end.
Proof.
  unfold main, bind at 1. simpl main_loop. unfold bind at 1.
  destruct (cycle wm no_line w) as [[[|] lb1] w1]; [|reflexivity].
  now destruct (main_loop wm fuel lb1 w1) as [[lb2|] w2].
Qed.

(** X17.  Nothing a turn of the loop does takes output back: both streams
    only grow.  When standard output accepts writes, what a turn adds to
    it starts with the prompt, and the prompt is the 11 bytes
    "mini-bash $", without the space that ends the [PROMPT] literal; the
    output of a whole run starts the same way. *)
Theorem prompt_first (wm : wait_macros) (lb : linebuf) (w : world) :
  w_wr_err w STDOUT_FILENO = None ->
  (exists out err,
     w_stdout (snd (cycle wm lb w)) = w_stdout w ++ lit "mini-bash $" ++ out /\
     w_stderr (snd (cycle wm lb w)) = w_stderr w ++ err) /\
  (forall fuel, exists out err,
     w_stdout (snd (main wm (S fuel) w))
     = w_stdout w ++ lit "mini-bash $" ++ out /\
     w_stderr (snd (main wm (S fuel) w)) = w_stderr w ++ err) /\
  PROMPT = lit "mini-bash $" ++ [SP].
Proof.
  intros Hout.
  assert (Hturn : forall lb0, exists out err,
             w_stdout (snd (cycle wm lb0 w))
             = w_stdout w ++ lit "mini-bash $" ++ out /\
             w_stderr (snd (cycle wm lb0 w)) = w_stderr w ++ err).
  { intros lb0. rewrite (cycle_after_prompt wm lb0 w Hout).
    assert (Hrest : appends
              (rl <- read_line lb0 ;;
               if (fst rl <? 0)%Z
               then write_chr STDOUT_FILENO LF ;;; ret (Break, snd rl)
               else run_line wm (snd rl))).
    { apply appends_bind; [auto with shell|]. intros rl.
      destruct (fst rl <? 0)%Z; auto with shell. }
    destruct (Hrest (prompted w)) as (out & err & Ho & He).
    exists out, err. rewrite Ho, He. unfold prompted, emit. simpl.
    now rewrite <- app_assoc. }
  split; [apply Hturn|]. split; [|reflexivity].
  intros fuel. rewrite (main_world wm fuel w).
  destruct (Hturn no_line) as (o1 & e1 & Ho1 & He1).
  destruct (cycle wm no_line w) as [[st lb1] w1]. cbn [snd] in Ho1, He1.
  destruct st.
  - destruct (appends_main_loop wm fuel lb1 w1) as (o2 & e2 & Ho2 & He2).
    exists (o1 ++ o2), (e1 ++ e2). rewrite Ho2, He2, Ho1, He1.
    rewrite <- ?app_assoc. split; reflexivity.
  - exists o1, e1. split; assumption.
Qed.

Lemma prompt_first_witness :
  let w := sample_world (feed (lit "ls" ++ [LF])) None in
  w_wr_err w STDOUT_FILENO = None /\
  exists out err,
    w_stdout (snd (cycle glibc_wait no_line w)) = lit "mini-bash $" ++ out /\
    w_stderr (snd (cycle glibc_wait no_line w)) = err.
Proof.
  intros w. split; [reflexivity|].
  destruct (proj1 (prompt_first glibc_wait no_line w eq_refl))
    as (out & err & Ho & He).
  exists out, err. split; [exact Ho | exact He].
Defined.

(** ** [read_line]: a buffer that is large enough is reused as it is *)

Lemma grow_fits heap cap len :
  (0 <= len)%Z -> (len + 2 <= cap)%Z -> grow heap cap len = Some cap.
Proof.
  intros Hlen Hfit. unfold grow, size_t.
  assert (((len + 2) mod 2 ^ 64 <= len + 2)%Z) by (apply Z.mod_le; lia).
  replace ((len + 2) mod 2 ^ 64 >? cap)%Z with false; [reflexivity|].
  symmetry. rewrite Z.gtb_ltb. apply Z.ltb_ge. lia.
Qed.

Lemma read_loop_fits heap : forall s rest cap got,
  ~ In LF s ->
  (str_len got + str_len s + 2 <= cap)%Z ->
  read_loop heap (feed s ++ RdByte LF :: rest) cap got
  = (str_len (got ++ s ++ [LF]), cap, (got ++ s ++ [LF]) ++ [NUL], rest).
Proof.
  induction s as [|c s IH]; intros rest cap got Hs Hfit.
  - simpl. rewrite grow_fits; [reflexivity | unfold str_len; lia |].
    unfold str_len in *. simpl length in Hfit. lia.
  - simpl. rewrite grow_fits; [| unfold str_len; lia |].
    2:{ unfold str_len in *. simpl length in Hfit. lia. }
    destruct (Ascii.eqb c LF) eqn:E.
    { apply Ascii.eqb_eq in E. subst c. exfalso. apply Hs. now left. }
    rewrite IH.
    + repeat (first [rewrite <- app_assoc | progress cbn [app]]).
      reflexivity.
    + intros Hin. apply Hs. now right.
    + unfold str_len in *. rewrite length_app. simpl length in *. lia.
Qed.

(** X18.  Once the buffer exists, a line that fits in it with its newline
    and terminator is read without any call for memory: whatever the heap
    would answer, [read_line] returns the line and keeps the capacity as
    it was. *)
Theorem read_line_reuses_buffer
    (lb : linebuf) (w : world) (s : text) (rest : list rd) :
  lb_alloc lb = true ->
  (str_len s + 2 <= lb_cap lb)%Z ->
  w_stdin w = feed s ++ RdByte LF :: rest ->
  ~ In LF s ->
  read_line lb w
  = ((str_len (s ++ [LF]), mkLinebuf true (lb_cap lb) (s ++ [LF; NUL])),
     set_stdin rest w).
Proof.
  intros Halloc Hfit Hin Hs. unfold read_line, start_cap.
  assert (Hcap : (lb_cap lb =? 0)%Z = false).
  { apply Z.eqb_neq. unfold str_len in Hfit. lia. }
  rewrite Halloc, Hcap. cbn [negb orb andb]. rewrite Hin.
  rewrite read_loop_fits; [| exact Hs | simpl; exact Hfit].
  cbn [app]. now rewrite <- app_assoc.
Qed.

Lemma read_line_reuses_buffer_witness :
  let w := stingy_world (feed (lit "ls" ++ [LF])) 0 in
  let lb := mkLinebuf true 256 (lit "exit" ++ [LF; NUL]) in
  w_heap w 256 = false /\
  (str_len (lit "ls") + 2 <= lb_cap lb)%Z /\
  read_line lb w
  = ((3%Z, mkLinebuf true 256 (lit "ls" ++ [LF; NUL])), set_stdin [] w).
Proof.
  intros w lb. split; [reflexivity|].
  assert (Hfit : (str_len (lit "ls") + 2 <= lb_cap lb)%Z)
    by (vm_compute; discriminate).
  split; [exact Hfit|].
  refine (read_line_reuses_buffer lb w (lit "ls") [] eq_refl Hfit eq_refl _).
  simpl. intros H. repeat (destruct H as [H | H]; [discriminate H|]).
  exact H.
Defined.
